(** * rclone [cmd/mount]: the file node and the read handle

    A shallow embedding of [cmd/mount/file.go] and [cmd/mount/read.go].

    The Go code talks to collaborators that live outside these two files:
    the storage object ([fs.Object]), the byte stream it opens (an
    [io.ReadCloser], possibly an [io.Seeker]), the accounting wrapper
    ([fs.Account]), the multi-hasher ([fs.MultiHasher]), the write handle
    and the other goroutines that touch a [File] while we sleep.  They are
    gathered in one interface, [Backend]; the mount code is written once for
    every backend, and every call it makes into the backend is appended to
    a log, so that "the stream was not touched" or "the object was reopened
    exactly once" are statements about that log. *)

From Stdlib Require Import ZArith String List Bool Lia.
From Stdlib Require Import Strings.Byte.
Import ListNotations.
Local Open Scope Z_scope.

(* ================================================================== *)
(** ** Machine integers *)

Module Int64.

Definition min_signed : Z := - 2 ^ 63.
Definition max_signed : Z := 2 ^ 63 - 1.

(** Two's complement wrap-around of Go's [int64]. *)
Definition wrap (z : Z) : Z := (z + 2 ^ 63) mod 2 ^ 64 - 2 ^ 63.

Definition add (a b : Z) : Z := wrap (a + b).

Definition in_range (z : Z) : Prop := min_signed <= z <= max_signed.

End Int64.

(* ================================================================== *)
(** ** Errors and results *)

(** [fs.HashType]. *)
Inductive HashType : Type := HashMD5 | HashSHA1.

(** The error values the two files create or compare against, and
    [ErrBackend] for whatever else a collaborator reports. *)
Inductive Err : Type :=
| errClosedFileHandle
| io_EOF
| io_ErrUnexpectedEOF
| fuse_ENOENT
| ErrorCantSetModTime
| ErrNew (msg : string)                               (* errors.New(msg) *)
| ErrCorrupted (t : HashType) (dstSum srcSum : string)
    (* errors.Errorf("corrupted on transfer: %v hash differ %q vs %q", ...) *)
| ErrOpenFlags (flags : Z)
    (* errors.Errorf("can't figure out how to open with flags %v", ...) *)
| ErrWrap (cause : Err) (msg : string)                (* errors.Wrap(err, msg) *)
| ErrBackend (code : nat).

(** A Go [(value, error)] pair of which exactly one is meaningful. *)
Inductive result (A : Type) : Type :=
| Ok (a : A)
| Failed (e : Err).
Arguments Ok {A} a.
Arguments Failed {A} e.

(** [errors.Wrap]: nil stays nil. *)
Definition Wrap (err : option Err) (msg : string) : option Err :=
  match err with
  | None => None
  | Some e => Some (ErrWrap e msg)
  end.

(* ================================================================== *)
(** ** Data *)

(** [fs.Fs], as far as the mount code looks at it. *)
Record Fs : Type := { fs_name : string; fs_hashes : list HashType }.

(** [fs.Object]: [Remote()], [Size()] and [Fs()]. *)
Record Object : Type := { Remote : string; Size : Z; obj_fs : Fs }.

(** [Dir] (dir.go); only its field [f] is read here. *)
Record Dir : Type := { dir_f : Fs }.

(** [newCreateInfo(f, remote)] (createinfo.go). *)
Record CreateInfo : Type := { ci_f : Fs; ci_remote : string }.

Definition newCreateInfo (f : Fs) (remote : string) : CreateInfo :=
  {| ci_f := f; ci_remote := remote |}.

(** [type File struct]. *)
Record File : Type := {
  f_size : Z;                 (* size of file, atomic int64 *)
  f_d : Dir;                  (* parent directory *)
  f_o : option Object;        (* NB o may be nil if file is being written *)
  f_writers : Z               (* number of writers for this file *)
}.

(** A stream handed out by [Object.Open]: an identity, and whether its
    dynamic type also implements [io.Seeker]. *)
Record Reader : Type := { rd_id : nat; rd_seeker : bool }.

(** The effective values of the mount flags and of [fs.Config]. *)
Record Config : Type := {
  noChecksum : bool;
  noSeek : bool;
  noModTime : bool;
  LowLevelRetries : Z
}.

(** [fuse.ReadRequest], [fuse.ReadResponse], [fuse.OpenRequest] and
    [fuse.OpenResponse], reduced to the fields in use. *)
Record ReadRequest : Type := { rq_Offset : Z; rq_Size : Z }.
Record ReadResponse : Type := { Data : list byte }.
Record OpenRequest : Type := { rq_Flags : Z }.
Record OpenResponse : Type := { rs_Flags : Z }.

(** [fuse.OpenFlags] and [fuse.OpenResponseFlags] (bazil.org/fuse); the
    access mode constants are those of [syscall], [OpenTruncate] is
    [O_TRUNC] as on Linux. *)
Definition OpenAccessModeMask : Z := 3.
Definition OpenReadOnly : Z := 0.
Definition OpenWriteOnly : Z := 1.
Definition OpenReadWrite : Z := 2.
Definition OpenTruncate : Z := 512.

Definition IsReadOnly (fl : Z) : bool := Z.land fl OpenAccessModeMask =? OpenReadOnly.
Definition IsWriteOnly (fl : Z) : bool := Z.land fl OpenAccessModeMask =? OpenWriteOnly.
Definition IsReadWrite (fl : Z) : bool := Z.land fl OpenAccessModeMask =? OpenReadWrite.

Definition OpenNonSeekable : Z := 4.   (* 1 << 2 *)

(** Calls into the collaborators, in the order they are made. *)
Inductive Event : Type :=
| EvOpen (o : Object) (offset : option Z)     (* o.Open() / o.Open(&fs.SeekOption{Offset}) *)
| EvSeek (r : Reader) (offset : Z)            (* r.(io.Seeker).Seek(offset, 0) *)
| EvClose (r : Reader)                        (* r.Close() *)
| EvReadFull (r : Reader) (len : Z)           (* io.ReadFull(fh.r, buf) reading the stream *)
| EvStopBuffering                             (* fh.r.StopBuffering() *)
| EvNewAccount (r : Reader)                   (* fs.NewAccount(r, o).WithBuffer() *)
| EvUpdateReader (r : Reader)                 (* fh.r.UpdateReader(r) *)
| EvHash (o : Object) (t : HashType)          (* o.Hash(t) *)
| EvTransferring (remote : string)            (* fs.Stats.Transferring *)
| EvDoneTransferring (remote : string)        (* fs.Stats.DoneTransferring *)
| EvSleep (ms : Z)                            (* time.Sleep *)
| EvNewWriteFileHandle (d : Dir) (f : File) (src : CreateInfo).

(* ================================================================== *)
(** ** The collaborators *)

Class Backend : Type := {
  World : Type;
  MultiHasher : Type;
  WriteFileHandle : Type;

  (** [o.Open(options...)]: a stream positioned at the offset, or an error. *)
  objOpen : World -> Object -> option Z -> World * result Reader;
  (** [Seek(offset, 0)] on a stream that is an [io.Seeker]. *)
  streamSeek : World -> Reader -> Z -> World * option Err;
  (** [Close()] on a stream. *)
  streamClose : World -> Reader -> World * option Err;
  (** [io.ReadFull] on a stream with a buffer of [len > 0] bytes: the bytes
      placed in the buffer and the error. *)
  streamReadFull : World -> Reader -> Z -> World * (list byte * option Err);
  (** [o.Hash(t)]. *)
  objHash : World -> Object -> HashType -> result string;

  (** [fs.NewMultiHasherTypes], [MultiHasher.Write] and the pairs that
      ranging over [MultiHasher.Sums()] visits, in the order visited. *)
  NewMultiHasherTypes : list HashType -> result MultiHasher;
  hashWrite : MultiHasher -> list byte -> MultiHasher * option Err;
  hashSums : MultiHasher -> list (HashType * string);
  (** [fs.HashEquals]. *)
  HashEquals : string -> string -> bool;

  (** [time.Sleep]: the other goroutines run, and may install the object
      ([setObject]) or change the writer count ([addWriters]). *)
  sleep : World -> Z -> File -> World * File;
  (** [newWriteFileHandle(d, f, src)] (write.go). *)
  newWriteFileHandle :
    World -> Dir -> File -> CreateInfo -> World * File * result WriteFileHandle;

  (** The documented contract of [io.ReadFull]: at most [len] bytes, no
      error exactly when the buffer was filled, [io.EOF] only when nothing
      was read. *)
  streamReadFull_contract :
    forall w r len w' bs e,
      0 < len ->
      streamReadFull w r len = (w', (bs, e)) ->
      Z.of_nat (length bs) <= len
      /\ (e = None <-> Z.of_nat (length bs) = len)
      /\ (e = Some io_EOF -> bs = [])
}.

Section Mount.

Context {B : Backend}.
Variable cfg : Config.

(** The world and the log of calls made into it. *)
Record St : Type := { world : World; log : list Event }.

Definition emit (st : St) (w : World) (ev : Event) : St :=
  {| world := w; log := log st ++ [ev] |}.

Definition note (st : St) (ev : Event) : St := emit st (world st) ev.

Definition doOpen (st : St) (o : Object) (offset : option Z) : St * result Reader :=
  let '(w, res) := objOpen (world st) o offset in (emit st w (EvOpen o offset), res).

Definition doSeek (st : St) (r : Reader) (offset : Z) : St * option Err :=
  let '(w, err) := streamSeek (world st) r offset in (emit st w (EvSeek r offset), err).

Definition doClose (st : St) (r : Reader) : St * option Err :=
  let '(w, err) := streamClose (world st) r in (emit st w (EvClose r), err).

(** [io.ReadFull(r, buf)] with [len(buf) = len].  With an empty buffer
    [io.ReadAtLeast] returns [0, nil] before it calls [Read].  ([len] is
    [req.Size], which the kernel never sends negative; [make] would panic
    on it.) *)
Definition ReadFull (st : St) (r : Reader) (len : Z) : St * (list byte * option Err) :=
  if len <=? 0 then (st, ([], None))
  else
    let '(w, res) := streamReadFull (world st) r len in
    (emit st w (EvReadFull r len), res).

Definition doHash (st : St) (o : Object) (t : HashType) : St * result string :=
  (note st (EvHash o t), objHash (world st) o t).

Definition doSleep (st : St) (ms : Z) (f : File) : St * File :=
  let '(w, f') := sleep (world st) ms f in (emit st w (EvSleep ms), f').

Definition doNewWriteFileHandle (st : St) (d : Dir) (f : File) (src : CreateInfo)
  : St * File * result WriteFileHandle :=
  let '(w, f', res) := newWriteFileHandle (world st) d f src in
  (emit st w (EvNewWriteFileHandle d f src), f', res).

(* ================================================================== *)
(** ** read.go *)

(** [type ReadFileHandle struct]; [fh_r] is the stream inside the
    [fs.Account]. *)
Record ReadFileHandle : Type := {
  fh_closed : bool;               (* set if handle has been closed *)
  fh_r : Reader;
  fh_o : Object;
  fh_readCalled : bool;           (* set if read has been called *)
  fh_offset : Z;
  fh_hash : option MultiHasher
}.

Definition set_closed (fh : ReadFileHandle) (b : bool) : ReadFileHandle :=
  {| fh_closed := b; fh_r := fh_r fh; fh_o := fh_o fh;
     fh_readCalled := fh_readCalled fh; fh_offset := fh_offset fh;
     fh_hash := fh_hash fh |}.

Definition set_r (fh : ReadFileHandle) (r : Reader) : ReadFileHandle :=
  {| fh_closed := fh_closed fh; fh_r := r; fh_o := fh_o fh;
     fh_readCalled := fh_readCalled fh; fh_offset := fh_offset fh;
     fh_hash := fh_hash fh |}.

Definition set_readCalled (fh : ReadFileHandle) (b : bool) : ReadFileHandle :=
  {| fh_closed := fh_closed fh; fh_r := fh_r fh; fh_o := fh_o fh;
     fh_readCalled := b; fh_offset := fh_offset fh;
     fh_hash := fh_hash fh |}.

Definition set_offset (fh : ReadFileHandle) (offset : Z) : ReadFileHandle :=
  {| fh_closed := fh_closed fh; fh_r := fh_r fh; fh_o := fh_o fh;
     fh_readCalled := fh_readCalled fh; fh_offset := offset;
     fh_hash := fh_hash fh |}.

Definition set_hash (fh : ReadFileHandle) (h : option MultiHasher) : ReadFileHandle :=
  {| fh_closed := fh_closed fh; fh_r := fh_r fh; fh_o := fh_o fh;
     fh_readCalled := fh_readCalled fh; fh_offset := fh_offset fh;
     fh_hash := h |}.

(** [newReadFileHandle]. *)
Definition newReadFileHandle (o : Object) (st : St) : St * result ReadFileHandle :=
  let '(st, res) := doOpen st o None in
  match res with
  | Failed e => (st, Failed e)
  | Ok r =>
      let hash :=
        if negb (noChecksum cfg) then
          match NewMultiHasherTypes (fs_hashes (obj_fs o)) with
          | Ok h => Some h
          | Failed _ => None
          end
        else None in
      let st := note st (EvNewAccount r) in
      let fh := {| fh_closed := false; fh_r := r; fh_o := o;
                   fh_readCalled := false; fh_offset := 0; fh_hash := hash |} in
      let st := note st (EvTransferring (Remote (fh_o fh))) in
      (st, Ok fh)
  end.

(** [seek]: to a new offset; if [reopen] is true the [io.Seeker]
    interface is not attempted. *)
Definition seek (fh : ReadFileHandle) (offset : Z) (reopen : bool) (st : St)
  : St * ReadFileHandle * option Err :=
  let st := note st EvStopBuffering in
  let fh := set_hash fh None in
  let oldReader := fh_r fh in
  if negb reopen && rd_seeker oldReader then
    let '(st, err) := doSeek st oldReader offset in
    match err with
    | Some e => (st, fh, Some e)
    | None =>
        let st := note st (EvUpdateReader oldReader) in
        (st, set_offset (set_r fh oldReader) offset, None)
    end
  else
    (* close old one; its error is only logged *)
    let '(st, _) := doClose st oldReader in
    (* re-open with a seek *)
    let '(st, res) := doOpen st (fh_o fh) (Some offset) in
    match res with
    | Failed e => (st, fh, Some e)
    | Ok r =>
        let st := note st (EvUpdateReader r) in
        (st, set_offset (set_r fh r) offset, None)
    end.

(** How one pass through the body of the [for] loop of [Read] ends. *)
Inductive Attempt : Type :=
| AtEOF                                     (* resp.Data = nil; return nil *)
| AtDone (bs : list byte) (newOffset : Z)   (* break with err == nil *)
| AtFailed (e : Err).                       (* falls through to the retry test *)

Definition isEOF (e : Err) : bool :=
  match e with
  | io_ErrUnexpectedEOF | io_EOF => true
  | _ => false
  end.

(** The block under [if err == nil]: fill the buffer and sort out how
    that went. *)
Definition fill (req : ReadRequest) (fh : ReadFileHandle) (st : St)
  : St * ReadFileHandle * Attempt :=
  let fh := if 0 <? rq_Size req then set_readCalled fh true else fh in
  (* make sure we never serve a partial read *)
  let '(st, (bs, err)) := ReadFull st (fh_r fh) (rq_Size req) in
  let n := Z.of_nat (length bs) in
  let newOffset := Int64.add (fh_offset fh) n in
  match err with
  | None => (st, fh, AtDone bs newOffset)
  | Some e =>
      if isEOF e && (newOffset =? Size (fh_o fh)) then
        (* have read to end of file - reset error *)
        (st, fh, AtDone bs newOffset)
      else (st, fh, AtFailed e)
  end.

(** The body of the loop, up to the retry test. *)
Definition attempt (req : ReadRequest) (doSeek doReopen : bool)
  (fh : ReadFileHandle) (st : St) : St * ReadFileHandle * Attempt :=
  if doSeek && (Size (fh_o fh) <=? rq_Offset req) then
    (* attempt to seek beyond the end of the file: just return EOF
       leaving the underlying file in an unchanged state *)
    (st, fh, AtEOF)
  else
    let '(st, fh, err) :=
      if doSeek then seek fh (rq_Offset req) doReopen st else (st, fh, None) in
    match err with
    | Some e => (st, fh, AtFailed e)
    | None => fill req fh st
    end.

(** How the loop is left. *)
Inductive LoopExit : Type :=
| ExitEOF
| ExitBreak (bs : list byte) (newOffset : Z) (err : option Err).

(** The [for] loop.  [budget] is the number of retries still allowed,
    [LowLevelRetries - retries]: the test [retries >= LowLevelRetries] is
    [budget = 0] and [retries++] takes one off. *)
Fixpoint readLoop (budget : nat) (req : ReadRequest) (doSeek doReopen : bool)
  (fh : ReadFileHandle) (st : St) : St * ReadFileHandle * LoopExit :=
  match attempt req doSeek doReopen fh st with
  | (st, fh, AtEOF) => (st, fh, ExitEOF)
  | (st, fh, AtDone bs newOffset) => (st, fh, ExitBreak bs newOffset None)
  | (st, fh, AtFailed e) =>
      match budget with
      | O => (st, fh, ExitBreak [] 0 (Some e))
      | S budget' => readLoop budget' req true true fh st
      end
  end.

(** [Read]. *)
Definition Read (fh : ReadFileHandle) (req : ReadRequest) (resp : ReadResponse)
  (st : St) : St * ReadFileHandle * ReadResponse * option Err :=
  if fh_closed fh then (st, fh, resp, Some errClosedFileHandle)
  else
    let doSeek := negb (rq_Offset req =? fh_offset fh) in
    match readLoop (Z.to_nat (LowLevelRetries cfg)) req doSeek false fh st with
    | (st, fh, ExitEOF) => (st, fh, {| Data := [] |}, None)
    | (st, fh, ExitBreak _ _ (Some e)) => (st, fh, resp, Some e)
    | (st, fh, ExitBreak bs newOffset None) =>
        let resp := {| Data := bs |} in
        let fh := set_offset fh newOffset in
        match fh_hash fh with
        | Some h =>
            let '(h, err) := hashWrite h (Data resp) in
            (st, set_hash fh (Some h), resp, err)
        | None => (st, fh, resp, None)
        end
    end.

(** The [range] loop of [checkHash] over the computed sums. *)
Fixpoint checkSums (o : Object) (sums : list (HashType * string)) (st : St)
  : St * option Err :=
  match sums with
  | [] => (st, None)
  | (hashType, dstSum) :: rest =>
      let '(st, res) := doHash st o hashType in
      match res with
      | Failed e => (st, Some e)
      | Ok srcSum =>
          if negb (HashEquals dstSum srcSum) then
            (st, Some (ErrCorrupted hashType dstSum srcSum))
          else checkSums o rest st
      end
  end.

(** [checkHash]. *)
Definition checkHash (fh : ReadFileHandle) (st : St) : St * option Err :=
  match fh_hash fh with
  | None => (st, None)
  | Some h =>
      if negb (fh_readCalled fh) || (fh_offset fh <? Size (fh_o fh)) then (st, None)
      else checkSums (fh_o fh) (hashSums h) st
  end.

(** [close]: closes the handle, returning [errClosedFileHandle] if it has
    been closed already. *)
Definition close (fh : ReadFileHandle) (st : St) : St * ReadFileHandle * option Err :=
  if fh_closed fh then (st, fh, Some errClosedFileHandle)
  else
    let fh := set_closed fh true in
    let st := note st (EvDoneTransferring (Remote (fh_o fh))) in
    match checkHash fh st with
    | (st, Some e) => (st, fh, Some e)
    | (st, None) =>
        let '(st, err) := doClose st (fh_r fh) in (st, fh, err)
    end.

(** [Flush]. *)
Definition Flush (fh : ReadFileHandle) (st : St) : St * ReadFileHandle * option Err :=
  match checkHash fh st with
  | (st, Some e) => (st, fh, Some e)
  | (st, None) => (st, fh, None)
  end.

(** [Release]. *)
Definition Release (fh : ReadFileHandle) (st : St) : St * ReadFileHandle * option Err :=
  if fh_closed fh then
    (* "ReadFileHandle.Release nothing to do" *)
    (st, fh, None)
  else close fh st.

(* ================================================================== *)
(** ** file.go *)

(** [newFile]. *)
Definition newFile (d : Dir) (o : option Object) : File :=
  {| f_size := 0; f_d := d; f_o := o; f_writers := 0 |}.

(** [rename]: update [f.o] and [f.d] after a rename. *)
Definition rename (f : File) (d : Dir) (o : option Object) : File :=
  {| f_size := f_size f; f_d := d; f_o := o; f_writers := f_writers f |}.

(** [addWriters]: increments or decrements the writers. *)
Definition addWriters (f : File) (n : Z) : File :=
  {| f_size := f_size f; f_d := f_d f; f_o := f_o f; f_writers := f_writers f + n |}.

(** [written]: update the size while writing. *)
Definition written (f : File) (n : Z) : File :=
  {| f_size := Int64.add (f_size f) n; f_d := f_d f; f_o := f_o f;
     f_writers := f_writers f |}.

(** The [for i := 0; i < 50; i++] loop of [waitForValidObject]; [polls]
    is [50 - i]. *)
Fixpoint waitLoop (polls : nat) (f : File) (st : St) : St * File * result Object :=
  match polls with
  | O => (st, f, Failed fuse_ENOENT)
  | S polls' =>
      match f_o f with
      | Some o => (st, f, Ok o)
      | None =>
          if f_writers f =? 0 then
            (st, f, Failed (ErrNew "can't open file - writer failed"))
          else
            let '(st, f) := doSleep st 100 f in
            waitLoop polls' f st
      end
  end.

(** [waitForValidObject]: wait for [f.o] to become non nil for a short
    time, returning it or an error. *)
Definition waitForValidObject (f : File) (st : St) : St * File * result Object :=
  waitLoop 50 f st.

(** [fusefs.Handle], as [Open] produces it. *)
Inductive Handle : Type :=
| HRead (fh : ReadFileHandle)
| HWrite (wh : WriteFileHandle).

Definition orNonSeekable (resp : OpenResponse) : OpenResponse :=
  {| rs_Flags := Z.lor (rs_Flags resp) OpenNonSeekable |}.

(** The end of [Open]: [errors.Wrap] the constructor's error, then return
    either [nil, err] or [fh, nil]. *)
Definition wrapped {A : Type} (mk : A -> Handle) (res : result A) (msg : string)
  : result Handle :=
  match res with
  | Ok fh => Ok (mk fh)
  | Failed e => Failed (ErrWrap e msg)
  end.

(** [Open]: open the file for read or write. *)
Definition Open (f : File) (req : OpenRequest) (resp : OpenResponse) (st : St)
  : St * File * OpenResponse * result Handle :=
  (* if o is nil it isn't valid yet *)
  match waitForValidObject f st with
  | (st, f, Failed e) => (st, f, resp, Failed e)
  | (st, f, Ok o) =>
      let flags := rq_Flags req in
      if IsReadOnly flags then
        let resp := if noSeek cfg then orNonSeekable resp else resp in
        let '(st, res) := newReadFileHandle o st in
        (st, f, resp, wrapped HRead res "open for read")
      else if IsWriteOnly flags
              || (IsReadWrite flags && negb (Z.land flags OpenTruncate =? 0)) then
        let resp := orNonSeekable resp in
        let src := newCreateInfo (dir_f (f_d f)) (Remote o) in
        let '(st, f, res) := doNewWriteFileHandle st (f_d f) f src in
        (st, f, resp, wrapped HWrite res "open for write")
      else if IsReadWrite flags then
        (st, f, resp, Failed (ErrNew "can't open for read and write simultaneously"))
      else
        (st, f, resp, Failed (ErrOpenFlags flags))
  end.

(** [Fsync]: we don't do anything except return OK. *)
Definition Fsync (f : File) (st : St) : St * File * option Err := (st, f, None).

End Mount.

(* ================================================================== *)
(** ** Observations used to state the properties *)

Section Observations.

Context {B : Backend}.
Variable cfg : Config.

(** The calls made between two states of the same run. *)
Definition since (st st' : St) : list Event := skipn (length (log st)) (log st').

(** [st'] is a later state of the run that went through [st]. *)
Definition extends (st st' : St) : Prop := exists evs, log st' = log st ++ evs.

Definition isOpenEv (ev : Event) : bool :=
  match ev with EvOpen _ _ => true | _ => false end.

Definition isHashEv (ev : Event) : bool :=
  match ev with EvHash _ _ => true | _ => false end.

(** Calls that touch a stream: opening, repositioning, closing, reading. *)
Definition isStreamEv (ev : Event) : bool :=
  match ev with
  | EvOpen _ _ | EvSeek _ _ | EvClose _ | EvReadFull _ _ => true
  | _ => false
  end.

(** The reopen counter: how many times the object was opened. *)
Definition reopens (evs : list Event) : nat := length (filter isOpenEv evs).


(** What happens to a handle during its lifetime. *)
Inductive Op : Type :=
| OpSeek (offset : Z) (reopen : bool)
| OpRead (req : ReadRequest) (resp : ReadResponse)
| OpFlush
| OpRelease.

Definition step (op : Op) (fh : ReadFileHandle) (st : St) : St * ReadFileHandle :=
  match op with
  | OpSeek offset reopen => let '(st, fh, _) := seek fh offset reopen st in (st, fh)
  | OpRead req resp => let '(st, fh, _, _) := Read cfg fh req resp st in (st, fh)
  | OpFlush => let '(st, fh, _) := Flush fh st in (st, fh)
  | OpRelease => let '(st, fh, _) := Release fh st in (st, fh)
  end.

Fixpoint run (ops : list Op) (fh : ReadFileHandle) (st : St) : St * ReadFileHandle :=
  match ops with
  | [] => (st, fh)
  | op :: ops' => let '(st, fh) := step op fh st in run ops' fh st
  end.

(** The node and the world after [k] sleeps of 100ms. *)
Fixpoint afterSleeps (k : nat) (w : World) (f : File) : World * File :=
  match k with
  | O => (w, f)
  | S k' => let '(w, f) := sleep w 100 f in afterSleeps k' w f
  end.

(** What the [k]-th poll of [waitForValidObject] sees. *)
Definition polled (k : nat) (w : World) (f : File) : File := snd (afterSleeps k w f).

(** The state after [k] sleeps of 100ms: the world has moved on and the
    log has [k] more sleeps. *)
Definition slept (k : nat) (st : St) (f : File) : St :=
  {| world := fst (afterSleeps k (world st) f);
     log := log st ++ repeat (EvSleep 100) k |}.

(** A poll that sees neither an object nor the end of the writers. *)
Definition stillWriting (f : File) : Prop := f_o f = None /\ f_writers f <> 0.

End Observations.

(* ================================================================== *)
(** ** A scripted backend

    One object whose stream delivers [sw_data]; the next [sw_faults] calls
    that open, seek or read a stream fail; the writers' effect on the node
    at each sleep is read off [sw_script]. *)

Module Sim.

Record SimWorld : Type := {
  sw_data : list byte;                        (* the bytes of the object *)
  sw_pos : nat;                               (* position of the live stream *)
  sw_faults : nat;                            (* injected failures left *)
  sw_seeker : bool;                           (* streams implement io.Seeker *)
  sw_opened : nat;                            (* streams opened so far *)
  sw_srcSums : list (HashType * result string);  (* what o.Hash reports *)
  sw_script : list (option Object * Z)        (* node updates, one per sleep *)
}.

Definition with_pos (w : SimWorld) (pos opened : nat) : SimWorld :=
  {| sw_data := sw_data w; sw_pos := pos; sw_faults := sw_faults w;
     sw_seeker := sw_seeker w; sw_opened := opened;
     sw_srcSums := sw_srcSums w; sw_script := sw_script w |}.

Definition with_faults (w : SimWorld) (k : nat) : SimWorld :=
  {| sw_data := sw_data w; sw_pos := sw_pos w; sw_faults := k;
     sw_seeker := sw_seeker w; sw_opened := sw_opened w;
     sw_srcSums := sw_srcSums w; sw_script := sw_script w |}.

Definition with_script (w : SimWorld) (s : list (option Object * Z)) : SimWorld :=
  {| sw_data := sw_data w; sw_pos := sw_pos w; sw_faults := sw_faults w;
     sw_seeker := sw_seeker w; sw_opened := sw_opened w;
     sw_srcSums := sw_srcSums w; sw_script := s |}.

Definition simOpen (w : SimWorld) (o : Object) (offset : option Z)
  : SimWorld * result Reader :=
  match sw_faults w with
  | S k => (with_faults w k, Failed (ErrBackend (S k)))
  | O =>
      let pos := match offset with Some z => Z.to_nat z | None => O end in
      (with_pos w pos (S (sw_opened w)),
       Ok {| rd_id := sw_opened w; rd_seeker := sw_seeker w |})
  end.

Definition simSeek (w : SimWorld) (r : Reader) (offset : Z) : SimWorld * option Err :=
  match sw_faults w with
  | S k => (with_faults w k, Some (ErrBackend (S k)))
  | O => (with_pos w (Z.to_nat offset) (sw_opened w), None)
  end.

Definition simClose (w : SimWorld) (r : Reader) : SimWorld * option Err := (w, None).

Definition simReadFull (w : SimWorld) (r : Reader) (len : Z)
  : SimWorld * (list byte * option Err) :=
  match sw_faults w with
  | S k => (with_faults w k, ([], Some (ErrBackend (S k))))
  | O =>
      let bs := firstn (Z.to_nat len) (skipn (sw_pos w) (sw_data w)) in
      let err :=
        if Z.of_nat (length bs) =? len then None
        else match bs with
             | [] => Some io_EOF
             | _ :: _ => Some io_ErrUnexpectedEOF
             end in
      (with_pos w (sw_pos w + length bs)%nat (sw_opened w), (bs, err))
  end.

Definition HashType_eqb (a b : HashType) : bool :=
  match a, b with
  | HashMD5, HashMD5 | HashSHA1, HashSHA1 => true
  | _, _ => false
  end.

Fixpoint lookupSum (t : HashType) (l : list (HashType * result string)) : result string :=
  match l with
  | [] => Failed (ErrBackend 0)
  | (t', s) :: rest => if HashType_eqb t t' then s else lookupSum t rest
  end.

Definition simHash (w : SimWorld) (o : Object) (t : HashType) : result string :=
  lookupSum t (sw_srcSums w).

(** The hasher keeps the bytes; the "digest" of every type is the bytes
    themselves. *)
Definition SimHasher : Type := (list HashType * list byte)%type.

Definition simNewMultiHasherTypes (ts : list HashType) : result SimHasher := Ok (ts, []).

Definition simHashWrite (h : SimHasher) (bs : list byte) : SimHasher * option Err :=
  ((fst h, snd h ++ bs), None).

Definition simHashSums (h : SimHasher) : list (HashType * string) :=
  map (fun t => (t, string_of_list_byte (snd h))) (fst h).

(** [fs.HashEquals]: an empty sum on either side compares equal. *)
Definition simHashEquals (src dst : string) : bool :=
  if String.eqb src "" || String.eqb dst "" then true else String.eqb src dst.

Definition simSleep (w : SimWorld) (ms : Z) (f : File) : SimWorld * File :=
  match sw_script w with
  | [] => (w, f)
  | (o, writers) :: rest =>
      (with_script w rest,
       {| f_size := f_size f; f_d := f_d f; f_o := o; f_writers := writers |})
  end.

(** The write handle of the scripted backend is the [src] it was made
    for; constructing it registers one more writer, as write.go does. *)
Definition simNewWriteFileHandle (w : SimWorld) (d : Dir) (f : File) (src : CreateInfo)
  : SimWorld * File * result CreateInfo :=
  (w, addWriters f 1, Ok src).

#[export, refine] Instance simBackend : Backend := {|
  World := SimWorld;
  MultiHasher := SimHasher;
  WriteFileHandle := CreateInfo;
  objOpen := simOpen;
  streamSeek := simSeek;
  streamClose := simClose;
  streamReadFull := simReadFull;
  objHash := simHash;
  NewMultiHasherTypes := simNewMultiHasherTypes;
  hashWrite := simHashWrite;
  hashSums := simHashSums;
  HashEquals := simHashEquals;
  sleep := simSleep;
  newWriteFileHandle := simNewWriteFileHandle
|}.
Proof.
  intros w r len w' bs e Hlen. unfold simReadFull.
  destruct (sw_faults w) as [|k].
  - intros H. injection H as _ Hbs He. subst bs.
    pose proof (firstn_le_length (Z.to_nat len) (skipn (sw_pos w) (sw_data w))) as Hle.
    remember (firstn (Z.to_nat len) (skipn (sw_pos w) (sw_data w))) as l eqn:El.
    clear El. subst e.
    destruct (Z.of_nat (length l) =? len) eqn:E.
    + apply Z.eqb_eq in E. split; [lia|]. split; [tauto|discriminate].
    + apply Z.eqb_neq in E. split; [lia|]. split.
      * split; [destruct l; discriminate | intros; contradiction].
      * destruct l; [reflexivity | discriminate].
  - intros H. injection H as _ Hbs He. subst bs e. simpl.
    split; [lia|]. split; [split; [discriminate | lia] | discriminate].
Defined.

End Sim.

(* ================================================================== *)
(** ** Concrete handles, nodes and worlds *)

Module Examples.

Import Sim.
Local Open Scope string_scope.

(** The default of [--low-level-retries], and a tight limit. *)
Definition cfg10 : Config :=
  {| noChecksum := false; noSeek := false; noModTime := false; LowLevelRetries := 10 |}.

Definition simFs : Fs := {| fs_name := "sim"; fs_hashes := [HashMD5; HashSHA1] |}.

(** A five byte object, "hello". *)
Definition hello : list byte := [x68; x65; x6c; x6c; x6f].
Definition obj : Object := {| Remote := "hello.txt"; Size := 5; obj_fs := simFs |}.

Definition stream0 : Reader := {| rd_id := 0; rd_seeker := false |}.
Definition seekable0 : Reader := {| rd_id := 0; rd_seeker := true |}.

Definition world0 : SimWorld :=
  {| sw_data := hello; sw_pos := 0; sw_faults := 0; sw_seeker := false;
     sw_opened := 1;
     sw_srcSums := [(HashMD5, Ok "hello"); (HashSHA1, Ok "hello")];
     sw_script := [] |}.

Definition st0 : St := {| world := world0; log := [] |}.


(** A freshly opened handle, and the same on a seekable stream. *)
Definition fh0 : ReadFileHandle :=
  {| fh_closed := false; fh_r := stream0; fh_o := obj; fh_readCalled := false;
     fh_offset := 0; fh_hash := Some ([HashMD5; HashSHA1], []) |}.
Definition fhSeekable : ReadFileHandle := set_r fh0 seekable0.

(** The handle after the whole object has been read, and its world. *)
Definition fhEnd : ReadFileHandle :=
  {| fh_closed := false; fh_r := stream0; fh_o := obj; fh_readCalled := true;
     fh_offset := 5; fh_hash := Some ([HashMD5; HashSHA1], hello) |}.
Definition stEnd : St := {| world := with_pos world0 5 1; log := [] |}.

(** That handle once closed. *)
Definition fhClosed : ReadFileHandle := set_closed fhEnd true.

(** Worlds whose backend reports another SHA-1, with and without a
    failing MD5 query. *)
Definition stOtherSum : St :=
  {| world :=
       {| sw_data := hello; sw_pos := 5; sw_faults := 0; sw_seeker := false;
          sw_opened := 1;
          sw_srcSums := [(HashMD5, Ok "hello"); (HashSHA1, Ok "jello")];
          sw_script := [] |};
     log := [] |}.
Definition stNoMD5 : St :=
  {| world :=
       {| sw_data := hello; sw_pos := 5; sw_faults := 0; sw_seeker := false;
          sw_opened := 1;
          sw_srcSums := [(HashMD5, Failed (ErrBackend 7)); (HashSHA1, Ok "jello")];
          sw_script := [] |};
     log := [] |}.

Definition resp0 : ReadResponse := {| Data := [] |}.

Definition dir0 : Dir := {| dir_f := simFs |}.

(** A node with its object, a node being written, and a node whose
    writer has gone without leaving an object. *)
Definition fileReady : File := newFile dir0 (Some obj).
Definition fileWriting : File := addWriters (newFile dir0 None) 1.
Definition fileOrphan : File := newFile dir0 None.

(** The writer installs the object during the second sleep; the writer
    gives up during the first sleep. *)
Definition stInstall : St :=
  {| world := with_script world0 [(None, 1); (Some obj, 0)]; log := [] |}.
Definition stGiveUp : St :=
  {| world := with_script world0 [(None, 0)]; log := [] |}.

(** A seekable stream in a world that hands out seekable streams. *)
Definition stSeekable : St :=
  {| world :=
       {| sw_data := hello; sw_pos := 0; sw_faults := 0; sw_seeker := true;
          sw_opened := 1;
          sw_srcSums := [(HashMD5, Ok "hello"); (HashSHA1, Ok "hello")];
          sw_script := [] |};
     log := [] |}.

(** Read requests: past the end, at the end, across the end, the whole
    object; open requests: O_RDWR and O_WRONLY. *)
Definition reqPast : ReadRequest := {| rq_Offset := 7; rq_Size := 4 |}.
Definition reqAtEnd : ReadRequest := {| rq_Offset := 5; rq_Size := 4 |}.
Definition reqTail : ReadRequest := {| rq_Offset := 2; rq_Size := 10 |}.
Definition reqAll : ReadRequest := {| rq_Offset := 0; rq_Size := 5 |}.
Definition openRW : OpenRequest := {| rq_Flags := OpenReadWrite |}.
Definition openW : OpenRequest := {| rq_Flags := OpenWriteOnly |}.

Definition openResp0 : OpenResponse := {| rs_Flags := 0 |}.

End Examples.

(* ================================================================== *)
(** ** More of file.go: attributes, modification times, the object *)

Module Uint64.

(** Wrap-around of Go's [uint64]; [uint64(x)] of an [int64] is [wrap x]. *)
Definition wrap (z : Z) : Z := z mod 2 ^ 64.

Definition add (a b : Z) : Z := wrap (a + b).

End Uint64.

(** [time.Time], counted from its zero value. *)
Definition Instant : Type := Z.

Definition zeroInstant : Instant := 0.

(** [t.IsZero()]. *)
Definition IsZero (t : Instant) : bool := t =? zeroInstant.

(** [fuse.Attr], reduced to the fields [File.Attr] writes. *)
Record FuseAttr : Type := {
  at_Size : Z;              (* uint64 *)
  at_Blocks : Z;            (* uint64, size in 512-byte units *)
  at_Atime : Instant;
  at_Mtime : Instant;
  at_Ctime : Instant;
  at_Crtime : Instant;
  at_Mode : Z;
  at_Uid : Z;
  at_Gid : Z
}.

(** The package variables [uid], [gid] and [filePerms] (mount.go). *)
Record Owner : Type := { uid : Z; gid : Z; filePerms : Z }.

(** [fuse.SetattrRequest], reduced to [Valid] and [Mtime], and the two
    bits of [fuse.SetattrValid] that [File.Setattr] asks about. *)
Record SetattrRequest : Type := { sa_Valid : Z; sa_Mtime : Instant }.

Definition SetattrMtime : Z := 32.        (* 1 << 5 *)
Definition SetattrMtimeNow : Z := 256.    (* 1 << 8 *)

Definition Valid_Mtime (fl : Z) : bool := negb (Z.land fl SetattrMtime =? 0).
Definition Valid_MtimeNow (fl : Z) : bool := negb (Z.land fl SetattrMtimeNow =? 0).

(** What [File.Attr], [File.Setattr] and [File.setObject] ask of their
    collaborators. *)
Class NodeBackend (B : Backend) : Type := {
  (** [o.ModTime()]. *)
  objModTime : World -> Object -> Instant;
  (** [o.SetModTime(t)]. *)
  objSetModTime : World -> Object -> Instant -> World * option Err;
  (** [time.Now()]. *)
  timeNow : World -> Instant;
  (** [d.addObject(o, f)] (dir.go). *)
  dirAddObject : World -> Dir -> Object -> File -> World
}.

Section Node.

Context {B : Backend} {N : NodeBackend B}.
Variable cfg : Config.
Variable own : Owner.

Definition set_owner (a : FuseAttr) : FuseAttr :=
  {| at_Size := at_Size a; at_Blocks := at_Blocks a;
     at_Atime := at_Atime a; at_Mtime := at_Mtime a;
     at_Ctime := at_Ctime a; at_Crtime := at_Crtime a;
     at_Mode := filePerms own; at_Uid := uid own; at_Gid := gid own |}.

Definition set_Size (a : FuseAttr) (size : Z) : FuseAttr :=
  {| at_Size := size; at_Blocks := at_Blocks a;
     at_Atime := at_Atime a; at_Mtime := at_Mtime a;
     at_Ctime := at_Ctime a; at_Crtime := at_Crtime a;
     at_Mode := at_Mode a; at_Uid := at_Uid a; at_Gid := at_Gid a |}.

Definition set_Blocks (a : FuseAttr) (blocks : Z) : FuseAttr :=
  {| at_Size := at_Size a; at_Blocks := blocks;
     at_Atime := at_Atime a; at_Mtime := at_Mtime a;
     at_Ctime := at_Ctime a; at_Crtime := at_Crtime a;
     at_Mode := at_Mode a; at_Uid := at_Uid a; at_Gid := at_Gid a |}.

Definition set_times (a : FuseAttr) (modTime : Instant) : FuseAttr :=
  {| at_Size := at_Size a; at_Blocks := at_Blocks a;
     at_Atime := modTime; at_Mtime := modTime;
     at_Ctime := modTime; at_Crtime := modTime;
     at_Mode := at_Mode a; at_Uid := at_Uid a; at_Gid := at_Gid a |}.

(** [Attr]: fills out the attributes for the file. *)
Definition Attr (f : File) (a : FuseAttr) (st : St) : FuseAttr * option Err :=
  let a := set_owner a in
  let a :=
    match f_o f with
    | None =>
        (* if o is nil it isn't valid yet, so return the size so far *)
        set_Size a (Uint64.wrap (f_size f))
    | Some o =>
        let a := set_Size a (Uint64.wrap (Size o)) in
        if negb (noModTime cfg) then set_times a (objModTime (world st) o) else a
    end in
  let a := set_Blocks a (Uint64.add (at_Size a) 511 / 512) in
  (a, None).

(** The outcome of [Setattr], with the call to [o.SetModTime] it made. *)
Record SetattrRun : Type := {
  sr_st : St;
  sr_f : File;
  sr_call : option (Object * Instant);
  sr_err : option Err
}.

(** [Setattr]: update file attributes; supports ModTime only. *)
Definition Setattr (f : File) (req : SetattrRequest) (st : St) : SetattrRun :=
  if noModTime cfg then
    {| sr_st := st; sr_f := f; sr_call := None; sr_err := None |}
  else
    (* if o is nil it isn't valid yet *)
    match waitForValidObject f st with
    | (st, f, Failed e) =>
        {| sr_st := st; sr_f := f; sr_call := None; sr_err := Some e |}
    | (st, f, Ok o) =>
        let newTime :=
          if Valid_MtimeNow (sa_Valid req) then timeNow (world st)
          else if Valid_Mtime (sa_Valid req) then sa_Mtime req
          else zeroInstant in
        if negb (IsZero newTime) then
          let '(w, err) := objSetModTime (world st) o newTime in
          let st := {| world := w; log := log st |} in
          match err with
          | None =>
              {| sr_st := st; sr_f := f; sr_call := Some (o, newTime); sr_err := None |}
          | Some ErrorCantSetModTime =>
              (* do nothing, in order to not break "touch somefile" if it
                 exists already *)
              {| sr_st := st; sr_f := f; sr_call := Some (o, newTime); sr_err := None |}
          | Some e =>
              {| sr_st := st; sr_f := f; sr_call := Some (o, newTime); sr_err := Some e |}
          end
        else
          {| sr_st := st; sr_f := f; sr_call := None; sr_err := None |}
    end.

(** [setObject]: update the object when written. *)
Definition setObject (f : File) (o : Object) (st : St) : St * File :=
  let f := {| f_size := f_size f; f_d := f_d f; f_o := Some o;
              f_writers := f_writers f |} in
  ({| world := dirAddObject (world st) (f_d f) o f; log := log st |}, f).

End Node.

(* ================================================================== *)
(** ** More observations *)

Section MoreObservations.

Context {B : Backend}.
Variable cfg : Config.

Definition countEv (p : Event -> bool) (evs : list Event) : nat :=
  length (filter p evs).

Definition isReadFullEv (ev : Event) : bool :=
  match ev with EvReadFull _ _ => true | _ => false end.

Definition isCloseEv (ev : Event) : bool :=
  match ev with EvClose _ => true | _ => false end.

Definition isDoneEv (ev : Event) : bool :=
  match ev with EvDoneTransferring _ => true | _ => false end.

Definition isSleepEv (ev : Event) : bool :=
  match ev with EvSleep _ => true | _ => false end.

(** The calls a pass through the loop of [Read] can make. *)
Definition isPassEv (ev : Event) : bool :=
  match ev with
  | EvOpen _ _ | EvSeek _ _ | EvClose _ | EvReadFull _ _
  | EvStopBuffering | EvUpdateReader _ => true
  | _ => false
  end.

(** A trace of pass calls with at most [reads] reads of the stream and
    at most [opens] opens of the object. *)
Definition passTrace (reads opens : nat) (evs : list Event) : Prop :=
  Forall (fun ev => isPassEv ev = true) evs
  /\ (countEv isReadFullEv evs <= reads)%nat
  /\ (countEv isOpenEv evs <= opens)%nat.


(** The operations the kernel can ask of a handle; [seek] is internal. *)
Definition external (op : Op) : bool :=
  match op with OpSeek _ _ => false | _ => true end.

(** A series of reads that all succeed: the final state and handle, and
    the data of each read in turn; [None] as soon as a read fails. *)
Fixpoint readAll (reqs : list ReadRequest) (fh : ReadFileHandle) (st : St)
  : option (St * ReadFileHandle * list (list byte)) :=
  match reqs with
  | [] => Some (st, fh, [])
  | req :: rest =>
      match Read cfg fh req {| Data := [] |} st with
      | (st1, fh1, resp1, None) =>
          match readAll rest fh1 st1 with
          | Some (st2, fh2, chunks) => Some (st2, fh2, Data resp1 :: chunks)
          | None => None
          end
      | (_, _, _, Some _) => None
      end
  end.

(** A hasher after the chunks have been written to it, one after the
    other, and an offset after it has advanced over them. *)
Definition fed (h : MultiHasher) (chunks : list (list byte)) : MultiHasher :=
  fold_left (fun h chunk => fst (hashWrite h chunk)) chunks h.

Definition advanced (offset : Z) (chunks : list (list byte)) : Z :=
  fold_left (fun off chunk => Int64.add off (Z.of_nat (length chunk))) chunks offset.

(** The size counter after a series of [written] calls. *)
Definition writtenAll (f : File) (ns : list Z) : File := fold_left written ns f.

End MoreObservations.

(* ================================================================== *)
(** ** The scripted backend, continued *)

Module SimNode.

Import Sim.

(** Every object was last modified at the same instant; the clock shows
    a later one. *)
Definition simModTime (w : SimWorld) (o : Object) : Instant := 1500.

Definition simNow (w : SimWorld) : Instant := 1600 + Z.of_nat (sw_opened w).

(** With one fault pending the backend cannot set modification times;
    with more it fails outright. *)
Definition simSetModTime (w : SimWorld) (o : Object) (t : Instant)
  : SimWorld * option Err :=
  match sw_faults w with
  | O => (w, None)
  | S O => (with_faults w 0, Some ErrorCantSetModTime)
  | S (S k) => (with_faults w (S k), Some (ErrBackend (S (S k))))
  end.

Definition simAddObject (w : SimWorld) (d : Dir) (o : Object) (f : File) : SimWorld := w.

#[export] Instance simNodeBackend : NodeBackend simBackend := {|
  objModTime := simModTime;
  objSetModTime := simSetModTime;
  timeNow := simNow;
  dirAddObject := simAddObject
|}.

End SimNode.

Module MoreExamples.

Import Sim SimNode Examples.
Local Open Scope string_scope.

Definition owner0 : Owner := {| uid := 1000; gid := 1000; filePerms := 438 |}.

Definition attr0 : FuseAttr :=
  {| at_Size := 0; at_Blocks := 0; at_Atime := 7; at_Mtime := 7; at_Ctime := 7;
     at_Crtime := 7; at_Mode := 0; at_Uid := 0; at_Gid := 0 |}.

(** [--no-modtime]. *)
Definition cfgNoModTime : Config :=
  {| noChecksum := false; noSeek := false; noModTime := true; LowLevelRetries := 10 |}.

(** [--no-checksum] and [--no-seek]. *)
Definition cfgPlain : Config :=
  {| noChecksum := true; noSeek := true; noModTime := false; LowLevelRetries := 10 |}.

(** No retries at all. *)
Definition cfg0 : Config :=
  {| noChecksum := false; noSeek := false; noModTime := false; LowLevelRetries := 0 |}.

(** An object of 1300 bytes. *)
Definition objBig : Object := {| Remote := "big.bin"; Size := 1300; obj_fs := simFs |}.

(** A world with one fault pending, and one with three. *)
Definition stOneFault : St := {| world := with_faults world0 1; log := [] |}.
Definition stThreeFaults : St := {| world := with_faults world0 3; log := [] |}.

(** [touch]: set the modification time to now; and an explicit time. *)
Definition touchNow : SetattrRequest := {| sa_Valid := SetattrMtimeNow; sa_Mtime := 0 |}.
Definition touchAt : SetattrRequest := {| sa_Valid := SetattrMtime; sa_Mtime := 1234 |}.
Definition chmodOnly : SetattrRequest := {| sa_Valid := 1; sa_Mtime := 1234 |}.

(** Open requests: O_RDONLY, and both access bits set. *)
Definition openR : OpenRequest := {| rq_Flags := OpenReadOnly |}.
Definition openBoth : OpenRequest := {| rq_Flags := 3 |}.

(** Read requests: the first two bytes, the last three, nothing. *)
Definition reqHead : ReadRequest := {| rq_Offset := 0; rq_Size := 2 |}.
Definition reqRest : ReadRequest := {| rq_Offset := 2; rq_Size := 3 |}.
Definition reqEmpty : ReadRequest := {| rq_Offset := 0; rq_Size := 0 |}.

(** A handle at the end of the object whose hasher saw other bytes. *)
Definition fhCorrupt : ReadFileHandle :=
  {| fh_closed := false; fh_r := stream0; fh_o := obj; fh_readCalled := true;
     fh_offset := 5; fh_hash := Some ([HashMD5; HashSHA1], [x6a; x65; x6c; x6c; x6f]) |}.

End MoreExamples.

(* ================================================================== *)
(** ** Properties *)

Section Properties.

Context {B : Backend}.
Variable cfg : Config.

(** *** The log only grows *)

Lemma since_app (st st' : St) (evs : list Event) :
  log st' = log st ++ evs -> since st st' = evs.
Proof.
  intros H. unfold since. rewrite H, skipn_app, skipn_all, Nat.sub_diag.
  reflexivity.
Qed.

Lemma since_refl (st : St) : since st st = [].
Proof. apply since_app. now rewrite app_nil_r. Qed.

Lemma extends_refl st : extends st st.
Proof. exists []. now rewrite app_nil_r. Qed.

Lemma extends_trans st1 st2 st3 : extends st1 st2 -> extends st2 st3 -> extends st1 st3.
Proof.
  intros [e1 H1] [e2 H2]. exists (e1 ++ e2). now rewrite H2, H1, app_assoc.
Qed.

Lemma extends_emit st w ev : extends st (emit st w ev).
Proof. now exists [ev]. Qed.

Ltac log_flat := cbn [log emit note world]; repeat rewrite <- app_assoc; cbn [app].

(** *** seek *)

Lemma seek_hash fh offset reopen st :
  fh_hash (snd (fst (seek fh offset reopen st))) = None.
Proof.
  unfold seek, doSeek, doClose, doOpen.
  destruct (negb reopen && rd_seeker (fh_r (set_hash fh None))).
  - destruct (streamSeek _ _ _) as [w [e|]]; reflexivity.
  - destruct (streamClose _ _) as [w c].
    destruct (objOpen _ _ _) as [w' [r|e]]; reflexivity.
Qed.

Lemma seek_extends fh offset reopen st :
  extends st (fst (fst (seek fh offset reopen st))).
Proof.
  unfold seek, doSeek, doClose, doOpen.
  destruct (negb reopen && rd_seeker (fh_r (set_hash fh None))).
  - destruct (streamSeek _ _ _) as [w [e|]]; cbn [fst];
      eexists; log_flat; reflexivity.
  - destruct (streamClose _ _) as [w c].
    destruct (objOpen _ _ _) as [w' [r|e]]; cbn [fst];
      eexists; log_flat; reflexivity.
Qed.

Lemma seek_direct fh offset st :
  rd_seeker (fh_r fh) = true ->
  seek fh offset false st =
    (let '(w, err) := streamSeek (world st) (fh_r fh) offset in
     match err with
     | Some e =>
         ({| world := w;
             log := log st ++ [EvStopBuffering; EvSeek (fh_r fh) offset] |},
          set_hash fh None, Some e)
     | None =>
         ({| world := w;
             log := log st ++ [EvStopBuffering; EvSeek (fh_r fh) offset;
                               EvUpdateReader (fh_r fh)] |},
          set_offset (set_hash fh None) offset, None)
     end).
Proof.
  intros Hs. unfold seek, doSeek. cbn [set_hash fh_r negb andb]. rewrite Hs.
  unfold note, emit. cbn [world log].
  destruct (streamSeek (world st) (fh_r fh) offset) as [w [e|]];
    cbn [world log]; repeat rewrite <- app_assoc; reflexivity.
Qed.

Lemma seek_reopen fh offset reopen st :
  rd_seeker (fh_r fh) = false \/ reopen = true ->
  seek fh offset reopen st =
    (let '(w1, _) := streamClose (world st) (fh_r fh) in
     let '(w2, res) := objOpen w1 (fh_o fh) (Some offset) in
     match res with
     | Failed e =>
         ({| world := w2;
             log := log st ++ [EvStopBuffering; EvClose (fh_r fh);
                               EvOpen (fh_o fh) (Some offset)] |},
          set_hash fh None, Some e)
     | Ok r =>
         ({| world := w2;
             log := log st ++ [EvStopBuffering; EvClose (fh_r fh);
                               EvOpen (fh_o fh) (Some offset); EvUpdateReader r] |},
          set_offset (set_r (set_hash fh None) r) offset, None)
     end).
Proof.
  intros Hcase. unfold seek, doClose, doOpen. cbn [set_hash fh_r fh_o].
  assert (Hb : negb reopen && rd_seeker (fh_r fh) = false).
  { destruct Hcase as [H|H]; rewrite H; [apply andb_false_r|reflexivity]. }
  rewrite Hb. unfold note, emit. cbn [world log].
  destruct (streamClose (world st) (fh_r fh)) as [w1 c]. cbn [world log].
  destruct (objOpen w1 (fh_o fh) (Some offset)) as [w2 [r|e]];
    cbn [world log]; repeat rewrite <- app_assoc; reflexivity.
Qed.

(** C5.  Every internal seek drops the hash state and leaves the object,
    the closed flag and the read flag alone.  When the stream is an
    [io.Seeker] and no reopen is forced it is repositioned in place: the
    object is not opened, the stream stays, and the result is what [Seek]
    answered.  Otherwise the old stream is closed (the answer of [Close]
    is ignored) and the object is opened exactly once, at the target
    offset: the result is what [Open] answered, and on success its stream
    replaces the old one.  The handle's offset becomes the target when
    the chosen strategy succeeds and is left alone when it fails. *)
Theorem seek_strategy (fh : ReadFileHandle) (offset : Z) (reopen : bool) (st : St) :
  let '(st', fh', err) := seek fh offset reopen st in
  fh_hash fh' = None
  /\ (rd_seeker (fh_r fh) = true -> reopen = false ->
      since st st' =
        EvStopBuffering :: EvSeek (fh_r fh) offset ::
        match err with None => [EvUpdateReader (fh_r fh)] | Some _ => [] end
      /\ reopens (since st st') = 0%nat)
  /\ (rd_seeker (fh_r fh) = false \/ reopen = true ->
      since st st' =
        EvStopBuffering :: EvClose (fh_r fh) :: EvOpen (fh_o fh) (Some offset) ::
        match err with None => [EvUpdateReader (fh_r fh')] | Some _ => [] end
      /\ reopens (since st st') = 1%nat)
  /\ (err = None -> fh_offset fh' = offset)
  /\ (err <> None -> fh_offset fh' = fh_offset fh)
  /\ (rd_seeker (fh_r fh) = true -> reopen = false ->
      world st' = fst (streamSeek (world st) (fh_r fh) offset)
      /\ err = snd (streamSeek (world st) (fh_r fh) offset)
      /\ fh_r fh' = fh_r fh)
  /\ (rd_seeker (fh_r fh) = false \/ reopen = true ->
      let w1 := fst (streamClose (world st) (fh_r fh)) in
      world st' = fst (objOpen w1 (fh_o fh) (Some offset))
      /\ match snd (objOpen w1 (fh_o fh) (Some offset)) with
         | Ok r => err = None /\ fh_r fh' = r
         | Failed e => err = Some e /\ fh_r fh' = fh_r fh
         end)
  /\ fh_o fh' = fh_o fh
  /\ fh_closed fh' = fh_closed fh
  /\ fh_readCalled fh' = fh_readCalled fh.
Proof.
  destruct (rd_seeker (fh_r fh)) eqn:Hs; destruct reopen.
  - (* a seekable stream, reopen forced *)
    rewrite (seek_reopen fh offset true st (or_intror eq_refl)).
    destruct (streamClose (world st) (fh_r fh)) as [w1 c]. cbn [fst].
    destruct (objOpen w1 (fh_o fh) (Some offset)) as [w2 [r|e]]; cbn [fst snd].
    all: split; [reflexivity|].
    all: split; [intros _ H; discriminate H|].
    all: split; [intros _; erewrite since_app by reflexivity; split; reflexivity|].
    all: split; [intros H; try discriminate H; reflexivity|].
    all: split; [intros H; try reflexivity; now contradiction H|].
    all: split; [intros _ H; discriminate H|].
    all: split; [intros _; repeat split|].
    all: repeat split.
  - (* a seekable stream, repositioned in place *)
    rewrite (seek_direct fh offset st Hs).
    destruct (streamSeek (world st) (fh_r fh) offset) as [w [e|]]; cbn [fst snd].
    all: split; [reflexivity|].
    all: split; [intros _ _; erewrite since_app by reflexivity; split; reflexivity|].
    all: split; [intros [H|H]; discriminate H|].
    all: split; [intros H; try discriminate H; reflexivity|].
    all: split; [intros H; try reflexivity; now contradiction H|].
    all: split; [intros _ _; repeat split|].
    all: split; [intros [H|H]; discriminate H|].
    all: repeat split.
  - (* no seeker, reopen forced *)
    rewrite (seek_reopen fh offset true st (or_intror eq_refl)).
    destruct (streamClose (world st) (fh_r fh)) as [w1 c]. cbn [fst].
    destruct (objOpen w1 (fh_o fh) (Some offset)) as [w2 [r|e]]; cbn [fst snd].
    all: split; [reflexivity|].
    all: split; [intros H; discriminate H|].
    all: split; [intros _; erewrite since_app by reflexivity; split; reflexivity|].
    all: split; [intros H; try discriminate H; reflexivity|].
    all: split; [intros H; try reflexivity; now contradiction H|].
    all: split; [intros H; discriminate H|].
    all: split; [intros _; repeat split|].
    all: repeat split.
  - (* no seeker *)
    rewrite (seek_reopen fh offset false st (or_introl Hs)).
    destruct (streamClose (world st) (fh_r fh)) as [w1 c]. cbn [fst].
    destruct (objOpen w1 (fh_o fh) (Some offset)) as [w2 [r|e]]; cbn [fst snd].
    all: split; [reflexivity|].
    all: split; [intros H; discriminate H|].
    all: split; [intros _; erewrite since_app by reflexivity; split; reflexivity|].
    all: split; [intros H; try discriminate H; reflexivity|].
    all: split; [intros H; try reflexivity; now contradiction H|].
    all: split; [intros H; discriminate H|].
    all: split; [intros _; repeat split|].
    all: repeat split.
Qed.

(** *** checkHash, Flush, close and Release on a handle without hash state *)

Lemma checkHash_nil fh st : fh_hash fh = None -> checkHash fh st = (st, None).
Proof. intros H. unfold checkHash. now rewrite H. Qed.

Lemma fill_hash req fh st :
  fh_hash (snd (fst (fill req fh st))) = fh_hash fh.
Proof.
  unfold fill. destruct (ReadFull _ _ _) as [st2 [bs [e|]]].
  - destruct (isEOF e && _); cbn [fst snd]; destruct (0 <? rq_Size req); reflexivity.
  - destruct (0 <? rq_Size req); reflexivity.
Qed.

Lemma attempt_hash req doSeek doReopen fh st :
  fh_hash fh = None ->
  fh_hash (snd (fst (attempt req doSeek doReopen fh st))) = None.
Proof.
  intros H. unfold attempt.
  destruct (doSeek && (Size (fh_o fh) <=? rq_Offset req)); [exact H|].
  destruct doSeek.
  - pose proof (seek_hash fh (rq_Offset req) doReopen st) as Hs.
    destruct (seek fh (rq_Offset req) doReopen st) as [[st1 fh1] [e|]];
      cbn [fst snd] in Hs |- *; [exact Hs|].
    now rewrite fill_hash.
  - now rewrite fill_hash.
Qed.

Lemma readLoop_hash budget : forall req doSeek doReopen fh st,
  fh_hash fh = None ->
  fh_hash (snd (fst (readLoop budget req doSeek doReopen fh st))) = None.
Proof.
  induction budget as [|k IH]; intros req doSeek doReopen fh st H; cbn [readLoop];
    pose proof (attempt_hash req doSeek doReopen fh st H) as Ha;
    destruct (attempt req doSeek doReopen fh st) as [[st1 fh1] [|bs off|e]];
    cbn [fst snd] in Ha |- *; auto.
Qed.

Lemma Read_hash fh req resp st :
  fh_hash fh = None ->
  fh_hash (snd (fst (fst (Read cfg fh req resp st)))) = None.
Proof.
  intros H. unfold Read. destruct (fh_closed fh); [exact H|].
  pose proof (readLoop_hash (Z.to_nat (LowLevelRetries cfg)) req
                (negb (rq_Offset req =? fh_offset fh)) false fh st H) as Hl.
  destruct (readLoop _ _ _ _ _ _) as [[st1 fh1] [|bs off [e|]]];
    cbn [fst snd] in Hl |- *; try exact Hl.
  cbn [set_offset fh_hash]. rewrite Hl. exact Hl.
Qed.

Lemma Flush_nil fh st : fh_hash fh = None -> Flush fh st = (st, fh, None).
Proof. intros H. unfold Flush. now rewrite (checkHash_nil fh st H). Qed.

Lemma close_nil fh st :
  fh_hash fh = None -> fh_closed fh = false ->
  close fh st =
    (let '(st', err) :=
       doClose (note st (EvDoneTransferring (Remote (fh_o fh)))) (fh_r fh) in
     (st', set_closed fh true, err)).
Proof.
  intros H Hc. unfold close. rewrite Hc.
  rewrite checkHash_nil by exact H. reflexivity.
Qed.

Lemma Release_hash fh st :
  fh_hash fh = None -> fh_hash (snd (fst (Release fh st))) = None.
Proof.
  intros H. unfold Release. destruct (fh_closed fh) eqn:Hc; [exact H|].
  rewrite close_nil by assumption.
  destruct (doClose _ _) as [st' err]. exact H.
Qed.

Lemma step_hash op fh st :
  (match op with OpSeek _ _ => True | _ => fh_hash fh = None end) ->
  fh_hash (snd (step cfg op fh st)) = None.
Proof.
  destruct op as [offset reopen|req resp| |]; intros H; cbn [step].
  - pose proof (seek_hash fh offset reopen st) as Hs.
    destruct (seek fh offset reopen st) as [[st1 fh1] e]. exact Hs.
  - pose proof (Read_hash fh req resp st H) as Hs.
    destruct (Read cfg fh req resp st) as [[[st1 fh1] r1] e]. exact Hs.
  - rewrite Flush_nil by exact H. exact H.
  - pose proof (Release_hash fh st H) as Hs.
    destruct (Release fh st) as [[st1 fh1] e]. exact Hs.
Qed.

Lemma run_hash ops : forall fh st,
  fh_hash fh = None -> fh_hash (snd (run cfg ops fh st)) = None.
Proof.
  induction ops as [|op ops IH]; intros fh st H; cbn [run]; [exact H|].
  assert (Hs : fh_hash (snd (step cfg op fh st)) = None).
  { apply step_hash. destruct op; auto. }
  destruct (step cfg op fh st) as [st1 fh1]. apply IH. exact Hs.
Qed.

(** C10.  After the internal seek has run, with or without success, the
    hash state is nil and stays nil whatever is done with the handle
    afterwards (further seeks, reads, flushes, the release); [checkHash]
    then succeeds without asking the backend for a hash, [Flush] succeeds,
    and a [Release] makes no hash query either. *)
Theorem hash_nil_after_seek (fh : ReadFileHandle) (offset : Z) (reopen : bool)
  (st : St) (ops : list Op) :
  let '(st1, fh1, _) := seek fh offset reopen st in
  let '(st2, fh2) := run cfg ops fh1 st1 in
  fh_hash fh1 = None
  /\ fh_hash fh2 = None
  /\ checkHash fh2 st2 = (st2, None)
  /\ Flush fh2 st2 = (st2, fh2, None)
  /\ (let '(st3, fh3, _) := Release fh2 st2 in
      fh_hash fh3 = None /\ filter isHashEv (since st2 st3) = []).
Proof.
  pose proof (seek_hash fh offset reopen st) as Hs.
  destruct (seek fh offset reopen st) as [[st1 fh1] e]. cbn [fst snd] in Hs.
  pose proof (run_hash ops fh1 st1 Hs) as Hr.
  destruct (run cfg ops fh1 st1) as [st2 fh2]. cbn [snd] in Hr.
  split; [exact Hs|]. split; [exact Hr|].
  split; [now apply checkHash_nil|]. split; [now apply Flush_nil|].
  pose proof (Release_hash fh2 st2 Hr) as Hrel.
  unfold Release in *. destruct (fh_closed fh2) eqn:Hc.
  - split; [exact Hr|]. now rewrite since_refl.
  - rewrite close_nil in * by assumption. unfold doClose in *.
    destruct (streamClose _ _) as [w err]. split; [exact Hr|].
    erewrite since_app by (log_flat; reflexivity). reflexivity.
Qed.

(** *** Operations on a closed handle *)

(** C9 (as the code has it).  On a handle that has been closed, [Read]
    and the internal [close] return [errClosedFileHandle] and touch
    nothing; a further [Release] finds "nothing to do" and returns
    success; [Flush] does not look at the closed flag and returns what
    [checkHash] returns. *)
Theorem closed_handle_operations (fh : ReadFileHandle) (req : ReadRequest)
  (resp : ReadResponse) (st : St) :
  fh_closed fh = true ->
  Read cfg fh req resp st = (st, fh, resp, Some errClosedFileHandle)
  /\ close fh st = (st, fh, Some errClosedFileHandle)
  /\ Release fh st = (st, fh, None)
  /\ Flush fh st = (fst (checkHash fh st), fh, snd (checkHash fh st)).
Proof.
  intros Hc. unfold Read, close, Release, Flush. rewrite Hc.
  repeat split. destruct (checkHash fh st) as [st' [e|]]; reflexivity.
Qed.

(** *** Read: the loop extends the log and keeps the object *)

Lemma ReadFull_extends st r len : extends st (fst (ReadFull st r len)).
Proof.
  unfold ReadFull. destruct (len <=? 0); [apply extends_refl|].
  destruct (streamReadFull _ _ _) as [w res]. apply extends_emit.
Qed.

Lemma seek_o fh offset reopen st :
  fh_o (snd (fst (seek fh offset reopen st))) = fh_o fh.
Proof.
  unfold seek, doSeek, doClose, doOpen.
  destruct (negb reopen && rd_seeker (fh_r (set_hash fh None))).
  - destruct (streamSeek _ _ _) as [w [e|]]; reflexivity.
  - destruct (streamClose _ _) as [w c].
    destruct (objOpen _ _ _) as [w' [r|e]]; reflexivity.
Qed.

Lemma seek_offset fh offset reopen st :
  snd (seek fh offset reopen st) = None ->
  fh_offset (snd (fst (seek fh offset reopen st))) = offset.
Proof.
  unfold seek, doSeek, doClose, doOpen.
  destruct (negb reopen && rd_seeker (fh_r (set_hash fh None))).
  - destruct (streamSeek _ _ _) as [w [e|]]; cbn; [discriminate|reflexivity].
  - destruct (streamClose _ _) as [w c].
    destruct (objOpen _ _ _) as [w' [r|e]]; cbn; [reflexivity|discriminate].
Qed.

Lemma fill_o req fh st : fh_o (snd (fst (fill req fh st))) = fh_o fh.
Proof.
  unfold fill. destruct (ReadFull _ _ _) as [st2 [bs [e|]]].
  - destruct (isEOF e && _); cbn [fst snd]; destruct (0 <? rq_Size req); reflexivity.
  - destruct (0 <? rq_Size req); reflexivity.
Qed.

Lemma fill_extends req fh st : extends st (fst (fst (fill req fh st))).
Proof.
  unfold fill.
  pose proof (ReadFull_extends st
                (fh_r (if 0 <? rq_Size req then set_readCalled fh true else fh))
                (rq_Size req)) as Hr.
  destruct (ReadFull _ _ _) as [st2 [bs [e|]]]; cbn [fst] in Hr.
  - destruct (isEOF e && _); exact Hr.
  - exact Hr.
Qed.

Lemma attempt_o req doSeek doReopen fh st :
  fh_o (snd (fst (attempt req doSeek doReopen fh st))) = fh_o fh.
Proof.
  unfold attempt.
  destruct (doSeek && (Size (fh_o fh) <=? rq_Offset req)); [reflexivity|].
  destruct doSeek.
  - pose proof (seek_o fh (rq_Offset req) doReopen st) as Hs.
    destruct (seek fh (rq_Offset req) doReopen st) as [[st1 fh1] [e|]];
      cbn [fst snd] in Hs |- *; [exact Hs|].
    now rewrite fill_o.
  - now rewrite fill_o.
Qed.

Lemma attempt_extends req doSeek doReopen fh st :
  extends st (fst (fst (attempt req doSeek doReopen fh st))).
Proof.
  unfold attempt.
  destruct (doSeek && (Size (fh_o fh) <=? rq_Offset req)); [apply extends_refl|].
  destruct doSeek.
  - pose proof (seek_extends fh (rq_Offset req) doReopen st) as Hs.
    destruct (seek fh (rq_Offset req) doReopen st) as [[st1 fh1] [e|]];
      cbn [fst] in Hs |- *; [exact Hs|].
    eapply extends_trans; [exact Hs|apply fill_extends].
  - apply fill_extends.
Qed.

Lemma readLoop_after_attempt budget : forall req doSeek doReopen fh st,
  extends (fst (fst (attempt req doSeek doReopen fh st)))
          (fst (fst (readLoop budget req doSeek doReopen fh st))).
Proof.
  induction budget as [|k IH]; intros req doSeek doReopen fh st; cbn [readLoop];
    destruct (attempt req doSeek doReopen fh st) as [[st1 fh1] [|bs off|e]];
    cbn [fst]; try apply extends_refl.
  eapply extends_trans; [apply attempt_extends|apply IH].
Qed.

Lemma Read_state fh req resp st :
  fh_closed fh = false ->
  fst (fst (fst (Read cfg fh req resp st))) =
  fst (fst (readLoop (Z.to_nat (LowLevelRetries cfg)) req
              (negb (rq_Offset req =? fh_offset fh)) false fh st)).
Proof.
  intros Hc. unfold Read. rewrite Hc.
  destruct (readLoop _ _ _ _ _ _) as [[st1 fh1] [|bs off [e|]]];
    cbn [fst]; try reflexivity.
  destruct (fh_hash (set_offset fh1 off)) as [h|]; [|reflexivity].
  destruct (hashWrite h _); reflexivity.
Qed.

(** *** Read at or past the end *)

(** C1 (as the code has it).  On an open handle, a request at or past the
    object's size whose offset differs from the handle's offset returns
    an empty result at once: the handle, the world and the log are what
    they were.  When the offset is the handle's own and the request is
    not empty, the first thing the call does is read the stream. *)
Theorem Read_past_end (fh : ReadFileHandle) (req : ReadRequest)
  (resp : ReadResponse) (st : St) :
  fh_closed fh = false ->
  Size (fh_o fh) <= rq_Offset req ->
  (rq_Offset req <> fh_offset fh ->
   Read cfg fh req resp st = (st, fh, {| Data := [] |}, None))
  /\ (rq_Offset req = fh_offset fh -> 0 < rq_Size req ->
      exists tail,
        since st (fst (fst (fst (Read cfg fh req resp st)))) =
          EvReadFull (fh_r fh) (rq_Size req) :: tail).
Proof.
  intros Hc Hsz. split.
  - intros Hne. unfold Read. rewrite Hc.
    apply Z.eqb_neq in Hne. rewrite Hne. cbn [negb].
    assert (Ha : attempt req true false fh st = (st, fh, AtEOF)).
    { unfold attempt. apply Z.leb_le in Hsz. now rewrite Hsz. }
    destruct (Z.to_nat (LowLevelRetries cfg)); cbn [readLoop]; now rewrite Ha.
  - intros Heq Hpos. rewrite Read_state by exact Hc.
    apply Z.eqb_eq in Heq. rewrite Heq. cbn [negb].
    pose proof (readLoop_after_attempt (Z.to_nat (LowLevelRetries cfg))
                  req false false fh st) as [tail Ht].
    assert (Ha : log (fst (fst (attempt req false false fh st))) =
                 log st ++ [EvReadFull (fh_r fh) (rq_Size req)]).
    { unfold attempt, fill, ReadFull. cbn [andb].
      assert (Hp : (0 <? rq_Size req) = true) by now apply Z.ltb_lt.
      assert (Hn : (rq_Size req <=? 0) = false) by (apply Z.leb_gt; lia).
      rewrite Hp, Hn. cbn [set_readCalled fh_r].
      destruct (streamReadFull _ _ _) as [w [bs [e|]]]; [|reflexivity].
      destruct (isEOF e && _); reflexivity. }
    exists tail. apply since_app. rewrite Ht, Ha, <- app_assoc. reflexivity.
Qed.

(** *** Read inside the object *)

Lemma wrap_in_range z : Int64.in_range z -> Int64.wrap z = z.
Proof.
  unfold Int64.in_range, Int64.min_signed, Int64.max_signed, Int64.wrap.
  intros H. rewrite Z.mod_small; lia.
Qed.

Lemma ReadFull_length st r len st' bs e :
  ReadFull st r len = (st', (bs, e)) ->
  0 <= len ->
  Z.of_nat (length bs) <= len
  /\ (e = None -> Z.of_nat (length bs) = len)
  /\ (e <> None -> Z.of_nat (length bs) < len).
Proof.
  unfold ReadFull. intros H Hlen. destruct (len <=? 0) eqn:Hz.
  - apply Z.leb_le in Hz. injection H as _ Hbs He. subst bs e. cbn.
    repeat split; try lia. congruence.
  - apply Z.leb_gt in Hz.
    destruct (streamReadFull (world st) r len) as [w [bs' e']] eqn:Hr.
    injection H as _ Hbs He. subst bs' e'.
    destruct (streamReadFull_contract _ _ _ _ _ _ Hz Hr) as (Hle & Hiff & _).
    repeat split; [exact Hle|apply Hiff|].
    intros Hne. destruct (Z.eq_dec (Z.of_nat (length bs)) len) as [Heq|Hneq]; [|lia].
    apply Hiff in Heq. contradiction.
Qed.

Lemma fill_done req fh st st' fh' bs newOffset :
  fill req fh st = (st', fh', AtDone bs newOffset) ->
  0 <= rq_Size req ->
  let n := Z.of_nat (length bs) in
  newOffset = Int64.add (fh_offset fh) n
  /\ (n = rq_Size req \/ (n < rq_Size req /\ newOffset = Size (fh_o fh))).
Proof.
  unfold fill. intros H Hsz.
  destruct (ReadFull st _ (rq_Size req)) as [st2 [bs2 e2]] eqn:Hr.
  destruct (ReadFull_length _ _ _ _ _ _ Hr Hsz) as (Hle & Hnone & Hsome).
  assert (Ho : forall b, fh_offset (if b : bool then set_readCalled fh true else fh)
                         = fh_offset fh) by (intros []; reflexivity).
  assert (Hoo : forall b, fh_o (if b : bool then set_readCalled fh true else fh)
                          = fh_o fh) by (intros []; reflexivity).
  destruct e2 as [e|].
  - destruct (isEOF e && _) eqn:Hb; [|discriminate].
    injection H as _ _ Hbs Hoff. subst bs2. rewrite Ho in Hoff.
    apply andb_prop in Hb as [_ Hb]. apply Z.eqb_eq in Hb.
    rewrite Ho, Hoo in Hb. cbn zeta. split; [now symmetry|]. right.
    split; [apply Hsome; discriminate|]. now rewrite <- Hoff.
  - injection H as _ _ Hbs Hoff. subst bs2. rewrite Ho in Hoff.
    cbn zeta. split; [now symmetry|]. left. now apply Hnone.
Qed.

Lemma attempt_done req doSeek doReopen fh st st' fh' bs newOffset :
  attempt req doSeek doReopen fh st = (st', fh', AtDone bs newOffset) ->
  (doSeek = false -> fh_offset fh = rq_Offset req) ->
  0 <= rq_Size req ->
  let n := Z.of_nat (length bs) in
  newOffset = Int64.add (rq_Offset req) n
  /\ (n = rq_Size req \/ (n < rq_Size req /\ newOffset = Size (fh_o fh))).
Proof.
  unfold attempt. intros H Hoff Hsz.
  destruct (doSeek && (Size (fh_o fh) <=? rq_Offset req)); [discriminate|].
  destruct doSeek.
  - pose proof (seek_o fh (rq_Offset req) doReopen st) as Ho.
    pose proof (seek_offset fh (rq_Offset req) doReopen st) as Hs.
    destruct (seek fh (rq_Offset req) doReopen st) as [[st1 fh1] [e|]];
      cbn [fst snd] in Ho, Hs; [discriminate|].
    destruct (fill_done _ _ _ _ _ _ _ H Hsz) as [H1 H2].
    rewrite Hs in H1 by reflexivity. rewrite Ho in H2. now split.
  - destruct (fill_done _ _ _ _ _ _ _ H Hsz) as [H1 H2].
    rewrite Hoff in H1 by reflexivity. now split.
Qed.

Lemma readLoop_done budget : forall req doSeek doReopen fh st st' fh' bs newOffset,
  readLoop budget req doSeek doReopen fh st = (st', fh', ExitBreak bs newOffset None) ->
  (doSeek = false -> fh_offset fh = rq_Offset req) ->
  0 <= rq_Size req ->
  let n := Z.of_nat (length bs) in
  newOffset = Int64.add (rq_Offset req) n
  /\ (n = rq_Size req \/ (n < rq_Size req /\ newOffset = Size (fh_o fh))).
Proof.
  induction budget as [|k IH]; intros req doSeek doReopen fh st st' fh' bs newOffset;
    cbn [readLoop]; intros H Hoff Hsz;
    pose proof (attempt_o req doSeek doReopen fh st) as Ho;
    destruct (attempt req doSeek doReopen fh st) as [[st1 fh1] [|bs1 off1|e]] eqn:Ha;
    cbn [fst snd] in Ho; try discriminate.
  - injection H as _ _ Hbs Hn. subst bs1 off1.
    exact (attempt_done _ _ _ _ _ _ _ _ _ Ha Hoff Hsz).
  - injection H as _ _ Hbs Hn. subst bs1 off1.
    exact (attempt_done _ _ _ _ _ _ _ _ _ Ha Hoff Hsz).
  - rewrite <- Ho. apply (IH _ _ _ _ _ _ _ _ _ H); [discriminate|exact Hsz].
Qed.

(** C2.  A [Read] that succeeds at an offset inside the object returns a
    buffer of exactly the requested size, or a shorter one that ends
    exactly at the object's size, that is of [Size - Offset] bytes; the
    handle's offset is then the requested offset plus the number of bytes
    returned.  (The request is one the kernel can make: its size is not
    negative and offset plus size stays within [int64].) *)
Theorem Read_inside (fh : ReadFileHandle) (req : ReadRequest) (resp : ReadResponse)
  (st st' : St) (fh' : ReadFileHandle) (resp' : ReadResponse) :
  Read cfg fh req resp st = (st', fh', resp', None) ->
  0 <= rq_Offset req < Size (fh_o fh) ->
  0 <= rq_Size req ->
  rq_Offset req + rq_Size req <= Int64.max_signed ->
  let n := Z.of_nat (length (Data resp')) in
  (n = rq_Size req \/ (n < rq_Size req /\ n = Size (fh_o fh) - rq_Offset req))
  /\ fh_offset fh' = rq_Offset req + n.
Proof.
  unfold Read. intros H Hin Hsz Hmax.
  destruct (fh_closed fh); [discriminate|].
  destruct (readLoop _ _ _ _ _ _) as [[st1 fh1] [|bs off [e|]]] eqn:Hl.
  - (* the early return needs a seek to an offset at or past the size *)
    exfalso. clear H.
    assert (Hno : forall k ds dr f s s1 f1,
               Size (fh_o f) = Size (fh_o fh) ->
               readLoop k req ds dr f s <> (s1, f1, ExitEOF)).
    { induction k as [|k IH]; intros ds dr f s s1 f1 Hof; cbn [readLoop];
        pose proof (attempt_o req ds dr f s) as Ho;
        destruct (attempt req ds dr f s) as [[s2 f2] [|b o|e]] eqn:Ha;
        cbn [fst snd] in Ho; try discriminate.
      1,2: unfold attempt in Ha;
           replace (Size (fh_o f) <=? rq_Offset req) with false in Ha
             by (symmetry; apply Z.leb_gt; lia);
           rewrite andb_false_r in Ha;
           destruct (if ds then seek f (rq_Offset req) dr s else (s, f, None))
             as [[s3 f3] [e3|]]; [discriminate|];
           unfold fill in Ha; destruct (ReadFull _ _ _) as [s4 [b4 [e4|]]];
           [destruct (isEOF e4 && _)|]; discriminate.
      apply IH. now rewrite Ho. }
    exact (Hno _ _ _ _ _ _ _ eq_refl Hl).
  - discriminate.
  - assert (Hoff : negb (rq_Offset req =? fh_offset fh) = false ->
                   fh_offset fh = rq_Offset req).
    { intros Hb. apply negb_false_iff, Z.eqb_eq in Hb. now symmetry. }
    destruct (readLoop_done _ _ _ _ _ _ _ _ _ _ Hl Hoff Hsz) as [Hnew Hcase].
    assert (Hdata : Data resp' = bs /\ fh_offset fh' = off).
    { destruct (fh_hash (set_offset fh1 off)) as [h|].
      - destruct (hashWrite h _) as [h' err]. injection H as _ Hfh Hresp _.
        subst fh' resp'. now split.
      - injection H as _ Hfh Hresp. subst fh' resp'. now split. }
    destruct Hdata as [Hd Ho]. cbn zeta. rewrite Hd, Ho.
    pose proof (Nat2Z.is_nonneg (length bs)) as Hn0.
    assert (Hn : Z.of_nat (length bs) <= rq_Size req) by (destruct Hcase; lia).
    assert (Hw : Int64.add (rq_Offset req) (Z.of_nat (length bs)) =
                 rq_Offset req + Z.of_nat (length bs)).
    { unfold Int64.add. apply wrap_in_range.
      unfold Int64.in_range, Int64.min_signed, Int64.max_signed in *. lia. }
    rewrite Hw in Hnew. split; [|exact Hnew].
    destruct Hcase as [Hc|[Hc1 Hc2]]; [now left|right]. split; [exact Hc1|lia].
Qed.

(** *** Read: bounded retries *)












(** *** checkHash *)

Lemma checkSums_world o sums : forall st,
  world (fst (checkSums o sums st)) = world st.
Proof.
  induction sums as [|[t d] rest IH]; intros st; cbn [checkSums doHash]; [reflexivity|].
  destruct (objHash (world st) o t) as [s|e]; [|reflexivity].
  destruct (negb (HashEquals d s)); [reflexivity|]. now rewrite IH.
Qed.

Lemma checkSums_disagreement o sums : forall st t d s,
  In (t, d) sums ->
  objHash (world st) o t = Ok s ->
  HashEquals d s = false ->
  snd (checkSums o sums st) <> None.
Proof.
  induction sums as [|[t' d'] rest IH]; intros st t d s Hin Hq Hne; [contradiction|].
  cbn [checkSums doHash].
  destruct (objHash (world st) o t') as [s'|e] eqn:Hq'; [|discriminate].
  destruct (HashEquals d' s') eqn:Heq; cbn [negb]; [|discriminate].
  destruct Hin as [Hhd|Htl].
  - injection Hhd as -> ->. congruence.
  - eapply IH; eauto.
Qed.

Lemma checkSums_corrupted o sums : forall st t d s,
  In (t, d) sums ->
  objHash (world st) o t = Ok s ->
  HashEquals d s = false ->
  (forall t' d', In (t', d') sums -> exists s', objHash (world st) o t' = Ok s') ->
  exists t1 d1 s1,
    In (t1, d1) sums /\ objHash (world st) o t1 = Ok s1 /\ HashEquals d1 s1 = false
    /\ snd (checkSums o sums st) = Some (ErrCorrupted t1 d1 s1).
Proof.
  induction sums as [|[t' d'] rest IH]; intros st t d s Hin Hq Hne Hall; [contradiction|].
  cbn [checkSums doHash].
  destruct (Hall t' d' (or_introl eq_refl)) as [s' Hq']. rewrite Hq'.
  destruct (HashEquals d' s') eqn:Heq; cbn [negb].
  - destruct Hin as [Hhd|Htl]; [injection Hhd as -> ->; congruence|].
    destruct (IH (note st (EvHash o t')) t d s Htl Hq Hne) as (t1 & d1 & s1 & H1 & H2 & H3 & H4).
    { intros t2 d2 H2. apply (Hall t2 d2). now right. }
    exists t1, d1, s1. repeat split; auto. now right.
  - exists t', d', s'. repeat split; auto. now left.
Qed.

Lemma checkSums_agreeing o pre : forall rest st,
  (forall t d, In (t, d) pre ->
     exists s, objHash (world st) o t = Ok s /\ HashEquals d s = true) ->
  checkSums o (pre ++ rest) st =
  checkSums o rest
    {| world := world st;
       log := log st ++ map (fun td => EvHash o (fst td)) pre |}.
Proof.
  induction pre as [|[t d] pre IH]; intros rest st Hall.
  - destruct st as [w l]. cbn. now rewrite app_nil_r.
  - cbn [app checkSums doHash].
    destruct (Hall t d (or_introl eq_refl)) as (s & Hq & He). rewrite Hq, He.
    cbn [negb]. rewrite IH.
    + unfold note, emit. cbn [world log map fst]. now rewrite <- app_assoc.
    + intros t' d' Hin. apply (Hall t' d'). now right.
Qed.

(** C4 (as the code has it).  [checkHash] returns success, without asking
    the backend anything, when there is no hash state, when no read was
    made or when the offset is short of the object's size.  Otherwise it
    asks the backend for the hash of each algorithm in the order the
    computed sums are visited, and stops at the first that does not pass:
    a hash query that fails is returned as it is, a digest that disagrees
    with the backend's gives a corruption error naming that algorithm and
    both digests, whatever the algorithms after it would answer; when all
    pass it succeeds.  So any disagreement makes [checkHash] fail; and
    when none of the hash queries fails, the failure is a corruption
    error that names a disagreeing algorithm and both its digests. *)
Theorem checkHash_verdict (fh : ReadFileHandle) (st : St) :
  (fh_hash fh = None \/ fh_readCalled fh = false \/ fh_offset fh < Size (fh_o fh) ->
   checkHash fh st = (st, None))
  /\ (forall h t dstSum srcSum,
      fh_hash fh = Some h ->
      fh_readCalled fh = true ->
      Size (fh_o fh) <= fh_offset fh ->
      In (t, dstSum) (hashSums h) ->
      objHash (world st) (fh_o fh) t = Ok srcSum ->
      HashEquals dstSum srcSum = false ->
      snd (checkHash fh st) <> None
      /\ ((forall t' d', In (t', d') (hashSums h) ->
                         exists s', objHash (world st) (fh_o fh) t' = Ok s') ->
          exists t1 d1 s1,
            In (t1, d1) (hashSums h)
            /\ objHash (world st) (fh_o fh) t1 = Ok s1
            /\ HashEquals d1 s1 = false
            /\ snd (checkHash fh st) = Some (ErrCorrupted t1 d1 s1)))
  /\ (forall h pre t dstSum post,
      fh_hash fh = Some h ->
      fh_readCalled fh = true ->
      Size (fh_o fh) <= fh_offset fh ->
      hashSums h = pre ++ (t, dstSum) :: post ->
      (forall t' d', In (t', d') pre ->
         exists s', objHash (world st) (fh_o fh) t' = Ok s'
                    /\ HashEquals d' s' = true) ->
      let asked :=
        {| world := world st;
           log := log st
                  ++ map (fun td => EvHash (fh_o fh) (fst td)) (pre ++ [(t, dstSum)]) |} in
      match objHash (world st) (fh_o fh) t with
      | Failed e => checkHash fh st = (asked, Some e)
      | Ok srcSum =>
          HashEquals dstSum srcSum = false ->
          checkHash fh st = (asked, Some (ErrCorrupted t dstSum srcSum))
      end)
  /\ (forall h,
      fh_hash fh = Some h ->
      fh_readCalled fh = true ->
      Size (fh_o fh) <= fh_offset fh ->
      (forall t d, In (t, d) (hashSums h) ->
         exists s, objHash (world st) (fh_o fh) t = Ok s /\ HashEquals d s = true) ->
      checkHash fh st =
        ({| world := world st;
            log := log st ++ map (fun td => EvHash (fh_o fh) (fst td)) (hashSums h) |},
         None)).
Proof.
  assert (Hrun : forall h,
            fh_hash fh = Some h -> fh_readCalled fh = true ->
            Size (fh_o fh) <= fh_offset fh ->
            checkHash fh st = checkSums (fh_o fh) (hashSums h) st).
  { intros h Hh Hr Hsz. unfold checkHash. rewrite Hh, Hr.
    replace (fh_offset fh <? Size (fh_o fh)) with false
      by (symmetry; apply Z.ltb_ge; lia).
    reflexivity. }
  split; [|split; [|split]].
  - unfold checkHash. intros [H|[H|H]].
    + now rewrite H.
    + rewrite H. now destruct (fh_hash fh).
    + apply Z.ltb_lt in H. rewrite H, orb_true_r. now destruct (fh_hash fh).
  - intros h t d s Hh Hr Hsz Hin Hq Hne. rewrite (Hrun h Hh Hr Hsz). split.
    + eapply checkSums_disagreement; eauto.
    + intros Hall. eapply checkSums_corrupted; eauto.
  - intros h pre t d post Hh Hr Hsz Hsums Hall. cbv zeta.
    rewrite (Hrun h Hh Hr Hsz), Hsums, (checkSums_agreeing _ pre _ st Hall).
    cbn [checkSums doHash world]. rewrite map_app. cbn [map fst].
    destruct (objHash (world st) (fh_o fh) t) as [s|e].
    + intros Hne. rewrite Hne. cbn [negb]. unfold note, emit. cbn [world log].
      now rewrite <- app_assoc.
    + unfold note, emit. cbn [world log]. now rewrite <- app_assoc.
  - intros h Hh Hr Hsz Hall. rewrite (Hrun h Hh Hr Hsz).
    rewrite <- (app_nil_r (hashSums h)) at 1.
    rewrite (checkSums_agreeing _ (hashSums h) [] st Hall). reflexivity.
Qed.

(** *** waitForValidObject *)

Lemma slept_O st f : slept 0 st f = st.
Proof. destruct st as [w l]. unfold slept. cbn. now rewrite app_nil_r. Qed.

Lemma polled_S k st f :
  polled (S k) (world st) f =
  polled k (world (fst (doSleep st 100 f))) (snd (doSleep st 100 f)).
Proof.
  unfold polled, doSleep. cbn [afterSleeps].
  destruct (sleep (world st) 100 f) as [w f']. reflexivity.
Qed.

Lemma slept_S k st f :
  slept (S k) st f = slept k (fst (doSleep st 100 f)) (snd (doSleep st 100 f)).
Proof.
  unfold slept, doSleep. cbn [afterSleeps repeat].
  destruct (sleep (world st) 100 f) as [w f']. cbn [fst snd world log emit].
  now rewrite <- app_assoc.
Qed.

Lemma waitLoop_stillWriting i : forall n f st,
  (forall j, (j < i)%nat -> stillWriting (polled j (world st) f)) ->
  waitLoop (i + n) f st = waitLoop n (polled i (world st) f) (slept i st f).
Proof.
  induction i as [|i IH]; intros n f st Hall.
  - now rewrite slept_O.
  - cbn [Nat.add waitLoop].
    destruct (Hall 0%nat ltac:(lia)) as [Ho Hw]. unfold polled in Ho, Hw.
    cbn [afterSleeps snd] in Ho, Hw. rewrite Ho.
    apply Z.eqb_neq in Hw. rewrite Hw.
    rewrite polled_S, slept_S.
    destruct (doSleep st 100 f) as [st1 f1] eqn:Hs. cbn [fst snd].
    apply IH. intros j Hj. specialize (Hall (S j) ltac:(lia)).
    rewrite polled_S, Hs in Hall. exact Hall.
Qed.

(** C6.  [waitForValidObject] polls the node at most 50 times, sleeping
    100ms after each poll that finds no object while writers remain.  It
    returns the object at the first poll that sees one; it returns the
    "writer failed" error at the first poll that sees no object and no
    writer; and when all 50 polls see no object and some writer, it
    returns [fuse.ENOENT] after the 50th sleep.  The two errors are
    different values. *)
Theorem waitForValidObject_outcomes (f : File) (st : St) :
  let seen k := polled k (world st) f in
  (forall i o,
     (i < 50)%nat ->
     (forall j, (j < i)%nat -> stillWriting (seen j)) ->
     f_o (seen i) = Some o ->
     waitForValidObject f st = (slept i st f, seen i, Ok o))
  /\ (forall i,
     (i < 50)%nat ->
     (forall j, (j < i)%nat -> stillWriting (seen j)) ->
     f_o (seen i) = None -> f_writers (seen i) = 0 ->
     waitForValidObject f st =
       (slept i st f, seen i, Failed (ErrNew "can't open file - writer failed")))
  /\ ((forall j, (j < 50)%nat -> stillWriting (seen j)) ->
     waitForValidObject f st = (slept 50%nat st f, seen 50%nat, Failed fuse_ENOENT))
  /\ ErrNew "can't open file - writer failed" <> fuse_ENOENT.
Proof.
  intros seen. unfold waitForValidObject. repeat split.
  - intros i o Hi Hall Ho.
    replace 50%nat with (i + S (49 - i))%nat by lia.
    rewrite waitLoop_stillWriting by exact Hall.
    cbn [waitLoop]. fold (seen i). now rewrite Ho.
  - intros i Hi Hall Ho Hw.
    replace 50%nat with (i + S (49 - i))%nat by lia.
    rewrite waitLoop_stillWriting by exact Hall.
    cbn [waitLoop]. fold (seen i). rewrite Ho, Hw. reflexivity.
  - intros Hall.
    replace 50%nat with (50 + 0)%nat at 1 by lia.
    rewrite waitLoop_stillWriting by exact Hall. reflexivity.
  - discriminate.
Qed.

(** *** Open *)

Lemma readWrite_modes fl :
  IsReadWrite fl = true -> IsReadOnly fl = false /\ IsWriteOnly fl = false.
Proof.
  unfold IsReadWrite, IsReadOnly, IsWriteOnly, OpenReadWrite, OpenReadOnly, OpenWriteOnly.
  intros H. apply Z.eqb_eq in H. rewrite H. now split.
Qed.

Lemma writeOnly_modes fl : IsWriteOnly fl = true -> IsReadOnly fl = false.
Proof.
  unfold IsReadOnly, IsWriteOnly, OpenReadOnly, OpenWriteOnly.
  intros H. apply Z.eqb_eq in H. now rewrite H.
Qed.

(** C7 (as the code has it).  An [Open] with read-write flags and no
    truncate flag always fails: with the "read and write simultaneously"
    error once [waitForValidObject] has produced the object, and with the
    error of [waitForValidObject] when it has not.  The response is left
    as it was and no handle is constructed. *)
Theorem Open_read_write (f : File) (req : OpenRequest) (resp : OpenResponse) (st : St) :
  IsReadWrite (rq_Flags req) = true ->
  Z.land (rq_Flags req) OpenTruncate = 0 ->
  Open cfg f req resp st =
    (let '(st1, f1, res) := waitForValidObject f st in
     match res with
     | Ok _ =>
         (st1, f1, resp,
          Failed (ErrNew "can't open for read and write simultaneously"))
     | Failed e => (st1, f1, resp, Failed e)
     end).
Proof.
  intros Hrw Htr. unfold Open.
  destruct (waitForValidObject f st) as [[st1 f1] [o|e]]; [|reflexivity].
  destruct (readWrite_modes _ Hrw) as [Hro Hwo].
  rewrite Hro, Hwo, Hrw, Htr. reflexivity.
Qed.

(** C8 (as the code has it).  An [Open] with write-only flags, or with
    read-write flags and the truncate flag, first waits for a valid
    object.  Once it has one, it sets the non-seekable bit in the response
    and makes one call to [newWriteFileHandle], for the node's parent
    directory and the node, and returns the handle made (or the
    constructor's error, wrapped as "open for write").  When the wait
    fails, [Open] returns that error: the response is untouched and no
    handle is constructed. *)
Theorem Open_for_write (f : File) (req : OpenRequest) (resp : OpenResponse) (st : St) :
  IsWriteOnly (rq_Flags req) = true
  \/ (IsReadWrite (rq_Flags req) = true /\ Z.land (rq_Flags req) OpenTruncate <> 0) ->
  Open cfg f req resp st =
    (let '(st1, f1, res) := waitForValidObject f st in
     match res with
     | Ok o =>
         let src := newCreateInfo (dir_f (f_d f1)) (Remote o) in
         let '(w2, f2, made) := newWriteFileHandle (world st1) (f_d f1) f1 src in
         ({| world := w2;
             log := log st1 ++ [EvNewWriteFileHandle (f_d f1) f1 src] |},
          f2, orNonSeekable resp, wrapped HWrite made "open for write")
     | Failed e => (st1, f1, resp, Failed e)
     end)
  /\ Z.testbit (rs_Flags (orNonSeekable resp)) 2 = true.
Proof.
  intros Hmode. split.
  - unfold Open.
    destruct (waitForValidObject f st) as [[st1 f1] [o|e]]; [|reflexivity].
    assert (Hro : IsReadOnly (rq_Flags req) = false).
    { destruct Hmode as [H|[H _]]; [now apply writeOnly_modes|].
      now apply readWrite_modes. }
    assert (Hw : IsWriteOnly (rq_Flags req)
                 || (IsReadWrite (rq_Flags req)
                     && negb (Z.land (rq_Flags req) OpenTruncate =? 0)) = true).
    { destruct Hmode as [H|[H1 H2]]; [now rewrite H|].
      apply Z.eqb_neq in H2. rewrite H1, H2. apply orb_true_r. }
    rewrite Hro, Hw. unfold doNewWriteFileHandle.
    destruct (newWriteFileHandle _ _ _ _) as [[w2 f2] made]. reflexivity.
  - unfold orNonSeekable, OpenNonSeekable. cbn [rs_Flags].
    rewrite Z.lor_spec. apply orb_true_r.
Qed.

End Properties.

(* ================================================================== *)
(** ** The properties on the scripted backend *)

Section OnTheScriptedBackend.

Import Sim Examples.
Local Open Scope string_scope.

(** A read at offset 7 of the five byte object, on a handle at offset 0. *)
Lemma Read_past_end_witness :
  Read cfg10 fh0 reqPast resp0 st0 = (st0, fh0, {| Data := [] |}, None).
Proof.
  assert (Hc : fh_closed fh0 = false) by reflexivity.
  assert (Hs : (Size (fh_o fh0) <= rq_Offset reqPast)%Z) by (cbn; lia).
  destruct (Read_past_end cfg10 fh0 reqPast resp0 st0 Hc Hs) as [Hne _].
  apply Hne. cbn. lia.
Defined.

(** C1 as stated fails on a handle that stands at the end of the object:
    a read at that very offset is passed to the stream. *)
Lemma Read_at_end_counterexample :
  fh_closed fhEnd = false
  /\ (Size (fh_o fhEnd) <= rq_Offset reqAtEnd)%Z
  /\ ~ (let '(st', fh', resp', err) := Read cfg10 fhEnd reqAtEnd resp0 stEnd in
        err = None /\ Data resp' = [] /\ fh_offset fh' = fh_offset fhEnd
        /\ filter isStreamEv (since stEnd st') = []).
Proof.
  split; [reflexivity|]. split; [cbn; lia|].
  vm_compute. intros (_ & _ & _ & H). discriminate H.
Qed.

(** Reading ten bytes at offset 2 of "hello" gives the three that are
    left, and the handle ends at 5. *)
Lemma Read_inside_witness :
  let '(_, fh', resp', err) := Read cfg10 fh0 reqTail resp0 st0 in
  err = None
  /\ Z.of_nat (length (Data resp')) = (Size obj - rq_Offset reqTail)%Z
  /\ fh_offset fh' = (rq_Offset reqTail + Z.of_nat (length (Data resp')))%Z.
Proof.
  pose proof (Read_inside cfg10 fh0 reqTail resp0 st0) as H.
  destruct (Read cfg10 fh0 reqTail resp0 st0) as [[[st' fh'] resp'] err] eqn:E.
  assert (Herr : err = None) by (vm_compute in E; congruence).
  subst err. specialize (H st' fh' resp' eq_refl).
  assert (H1 : (0 <= rq_Offset reqTail < Size (fh_o fh0))%Z) by (cbn; lia).
  assert (H2 : (0 <= rq_Size reqTail)%Z) by (cbn; lia).
  assert (H3 : (rq_Offset reqTail + rq_Size reqTail <= Int64.max_signed)%Z)
    by (vm_compute; discriminate).
  destruct (H H1 H2 H3) as [Hlen Hoff].
  split; [reflexivity|]. split; [|exact Hoff].
  assert (Hd : Data resp' = [x6c; x6c; x6f]).
  { vm_compute in E. injection E as _ _ Hr. now subst resp'. }
  rewrite Hd. reflexivity.
Defined.


(** The backend reports another SHA-1 for "hello": corruption, named.
    When its MD5 query fails first, that failure is what comes back. *)
Lemma checkHash_verdict_witness :
  snd (checkHash fhEnd stOtherSum) = Some (ErrCorrupted HashSHA1 "hello" "jello")
  /\ snd (checkHash fhEnd stNoMD5) = Some (ErrBackend 7).
Proof.
  assert (Hsz : (Size (fh_o fhEnd) <= fh_offset fhEnd)%Z) by (vm_compute; discriminate).
  split.
  - destruct (checkHash_verdict fhEnd stOtherSum) as (_ & H & _).
    assert (Hin : In (HashSHA1, "hello") (hashSums ([HashMD5; HashSHA1], hello)))
      by (right; left; reflexivity).
    destruct (H ([HashMD5; HashSHA1], hello) HashSHA1 "hello" "jello"
                eq_refl eq_refl Hsz Hin eq_refl eq_refl) as [_ Hc].
    destruct Hc as (t1 & d1 & s1 & _ & _ & _ & Hres).
    + intros t' d' [Hi|[Hi|[]]]; injection Hi as <- <-; eexists; reflexivity.
    + rewrite Hres. vm_compute in Hres. symmetry. exact Hres.
  - destruct (checkHash_verdict fhEnd stNoMD5) as (_ & _ & H & _).
    pose proof (H ([HashMD5; HashSHA1], hello) [] HashMD5 "hello" [(HashSHA1, "hello")]
                  eq_refl eq_refl Hsz eq_refl) as Hq.
    cbv zeta in Hq.
    change (objHash (world stNoMD5) (fh_o fhEnd) HashMD5)
      with (@Failed string (ErrBackend 7)) in Hq.
    rewrite Hq; [reflexivity|]. intros t' d' [].
Defined.

(** C4 as stated fails when a hash query fails before the disagreeing
    algorithm is reached: the SHA-1 digests differ, yet [checkHash] returns
    the error of the MD5 query. *)
Lemma checkHash_query_error_counterexample :
  fh_hash fhEnd = Some ([HashMD5; HashSHA1], hello)
  /\ fh_readCalled fhEnd = true
  /\ (Size (fh_o fhEnd) <= fh_offset fhEnd)%Z
  /\ In (HashSHA1, "hello") (hashSums ([HashMD5; HashSHA1], hello))
  /\ objHash (world stNoMD5) (fh_o fhEnd) HashSHA1 = Ok "jello"
  /\ HashEquals "hello" "jello" = false
  /\ ~ (exists t d s, snd (checkHash fhEnd stNoMD5) = Some (ErrCorrupted t d s)).
Proof.
  split; [reflexivity|]. split; [reflexivity|].
  split; [vm_compute; discriminate|].
  split; [right; left; reflexivity|].
  split; [reflexivity|]. split; [reflexivity|].
  intros (t & d & s & H). vm_compute in H. discriminate H.
Qed.

(** A seek on a stream that cannot seek reopens the object once; a seek
    on a seekable stream does not reopen it; both end at the target. *)
Lemma seek_strategy_witness :
  (let '(st', fh', _) := seek fh0 3 false st0 in
   reopens (since st0 st') = 1%nat /\ fh_offset fh' = 3%Z)
  /\ (let '(st', fh', _) := seek fhSeekable 3 false stSeekable in
      reopens (since stSeekable st') = 0%nat /\ fh_offset fh' = 3%Z).
Proof.
  split.
  - pose proof (seek_strategy fh0 3 false st0) as H.
    destruct (seek fh0 3 false st0) as [[st' fh'] err] eqn:E.
    destruct H as (_ & _ & Hre & Hok & _).
    split; [apply (Hre (or_introl eq_refl))|].
    apply Hok. vm_compute in E. congruence.
  - pose proof (seek_strategy fhSeekable 3 false stSeekable) as H.
    destruct (seek fhSeekable 3 false stSeekable) as [[st' fh'] err] eqn:E.
    destruct H as (_ & Hdir & _ & Hok & _).
    split; [apply (Hdir eq_refl eq_refl)|].
    apply Hok. vm_compute in E. congruence.
Defined.

(** The writer installs the object during the second sleep: the third
    poll returns it.  The writer gives up during the first sleep: the
    second poll reports it.  Nothing ever changes: [ENOENT] after 50
    sleeps. *)
Lemma waitForValidObject_witness :
  waitForValidObject fileWriting stInstall =
    (slept 2 stInstall fileWriting, polled 2 (world stInstall) fileWriting, Ok obj)
  /\ waitForValidObject fileWriting stGiveUp =
       (slept 1 stGiveUp fileWriting, polled 1 (world stGiveUp) fileWriting,
        Failed (ErrNew "can't open file - writer failed"))
  /\ waitForValidObject fileWriting st0 =
       (slept 50 st0 fileWriting, polled 50 (world st0) fileWriting,
        Failed fuse_ENOENT).
Proof.
  split; [|split].
  - destruct (waitForValidObject_outcomes fileWriting stInstall) as [Hfound _].
    apply Hfound; [lia| |reflexivity].
    intros j Hj. destruct j as [|[|j]]; [| |lia];
      (split; [reflexivity|vm_compute; discriminate]).
  - destruct (waitForValidObject_outcomes fileWriting stGiveUp) as (_ & Hfail & _).
    apply Hfail; [lia| |reflexivity|reflexivity].
    intros j Hj. destruct j as [|j]; [|lia].
    split; [reflexivity|vm_compute; discriminate].
  - destruct (waitForValidObject_outcomes fileWriting st0) as (_ & _ & Hout & _).
    apply Hout. intros j _.
    assert (Hsame : forall k, afterSleeps k (world st0) fileWriting
                              = (world st0, fileWriting)).
    { induction k as [|k IH]; [reflexivity|]. cbn [afterSleeps]. exact IH. }
    unfold polled. rewrite Hsame.
    split; [reflexivity|vm_compute; discriminate].
Defined.

(** O_RDWR on a node that has its object: the unsupported-mode error. *)
Lemma Open_read_write_witness :
  Open cfg10 fileReady openRW openResp0 st0 =
    (st0, fileReady, openResp0,
     Failed (ErrNew "can't open for read and write simultaneously")).
Proof.
  rewrite (Open_read_write cfg10 fileReady openRW openResp0 st0);
    reflexivity.
Defined.

(** C7 as stated fails on a node without object and without writers:
    the open fails in [waitForValidObject], with another error. *)
Lemma Open_read_write_counterexample :
  IsReadWrite (rq_Flags openRW) = true
  /\ Z.land (rq_Flags openRW) OpenTruncate = 0%Z
  /\ f_o fileOrphan = None
  /\ snd (Open cfg10 fileOrphan openRW openResp0 st0) <>
       Failed (ErrNew "can't open for read and write simultaneously").
Proof.
  repeat (split; [reflexivity|]). vm_compute. discriminate.
Qed.

(** O_WRONLY on a node that has its object: the response is marked
    non-seekable and the write handle of the node is returned. *)
Lemma Open_for_write_witness :
  Open cfg10 fileReady openW openResp0 st0 =
    ({| world := world0;
        log := [EvNewWriteFileHandle dir0 fileReady (newCreateInfo simFs "hello.txt")] |},
     addWriters fileReady 1, {| rs_Flags := OpenNonSeekable |},
     Ok (HWrite (newCreateInfo simFs "hello.txt"))).
Proof.
  destruct (Open_for_write cfg10 fileReady openW openResp0 st0) as [H _].
  - left. reflexivity.
  - rewrite H. reflexivity.
Defined.

(** C8 as stated fails on a node without object and without writers: no
    write handle is made and the response is not marked. *)
Lemma Open_for_write_counterexample :
  IsWriteOnly (rq_Flags openW) = true
  /\ f_o fileOrphan = None
  /\ ~ (let '(_, _, resp', res) := Open cfg10 fileOrphan openW openResp0 st0 in
        Z.testbit (rs_Flags resp') 2 = true
        /\ exists wh, res = Ok (HWrite wh)).
Proof.
  split; [reflexivity|]. split; [reflexivity|].
  vm_compute. intros [H _]. discriminate H.
Qed.

(** On the closed handle: [Read] is refused, [Release] finds nothing to
    do, [Flush] verifies the hashes once more. *)
Lemma closed_handle_operations_witness :
  Read cfg10 fhClosed reqAll resp0 stEnd = (stEnd, fhClosed, resp0, Some errClosedFileHandle)
  /\ Release fhClosed stEnd = (stEnd, fhClosed, None)
  /\ snd (Flush fhClosed stEnd) = None.
Proof.
  destruct (closed_handle_operations cfg10 fhClosed reqAll resp0 stEnd eq_refl)
    as (HR & _ & HRel & HF).
  split; [exact HR|]. split; [exact HRel|]. rewrite HF. reflexivity.
Defined.

(** C9 as stated fails for [Release] and for [Flush]: on the closed
    handle both return success. *)
Lemma closed_handle_counterexample :
  fh_closed fhClosed = true
  /\ ~ (snd (Release fhClosed stEnd) = Some errClosedFileHandle
        /\ snd (Flush fhClosed stEnd) = Some errClosedFileHandle).
Proof.
  split; [reflexivity|]. vm_compute. intros [H _]. discriminate H.
Qed.

(** The handle is sought to 3, read to the end, flushed and released:
    no hash state is left and no hash is ever asked for. *)
Lemma hash_nil_after_seek_witness :
  let '(st1, fh1, _) := seek fh0 3 false st0 in
  let '(st2, fh2) := run cfg10 [OpRead reqAll resp0; OpFlush; OpRelease] fh1 st1 in
  fh_hash fh2 = None /\ filter isHashEv (log st2) = [].
Proof.
  pose proof (hash_nil_after_seek cfg10 fh0 3 false st0
                [OpRead reqAll resp0; OpFlush; OpRelease]) as H.
  destruct (seek fh0 3 false st0) as [[st1 fh1] e1] eqn:E1.
  destruct (run cfg10 _ fh1 st1) as [st2 fh2] eqn:E2.
  destruct H as (_ & Hnil & _). split; [exact Hnil|].
  vm_compute in E1. injection E1 as <- <- _.
  vm_compute in E2. injection E2 as <- _. reflexivity.
Defined.

End OnTheScriptedBackend.

(* ================================================================== *)
(** ** More properties *)

Section MoreProperties.

Context {B : Backend} {N : NodeBackend B}.
Variable cfg : Config.
Variable own : Owner.

Ltac flat_log := cbn [log emit note world]; repeat rewrite <- app_assoc; cbn [app].

(** *** waitForValidObject, for every environment *)

Lemma waitLoop_bounded polls : forall f st,
  exists k,
    (k <= polls)%nat
    /\ log (fst (fst (waitLoop polls f st))) = log st ++ repeat (EvSleep 100) k
    /\ match snd (waitLoop polls f st) with
       | Ok o => f_o (snd (fst (waitLoop polls f st))) = Some o
       | Failed e =>
           (e = ErrNew "can't open file - writer failed"
            /\ f_o (snd (fst (waitLoop polls f st))) = None
            /\ f_writers (snd (fst (waitLoop polls f st))) = 0)
           \/ (e = fuse_ENOENT /\ k = polls)
       end.
Proof.
  induction polls as [|n IH]; intros f st; cbn [waitLoop].
  - exists 0%nat. cbn. rewrite app_nil_r. split; [lia|]. split; [reflexivity|]. now right.
  - destruct (f_o f) as [o|] eqn:Ho.
    + exists 0%nat. cbn. rewrite app_nil_r. split; [lia|]. now split.
    + destruct (f_writers f =? 0) eqn:Hw.
      * exists 0%nat. cbn. rewrite app_nil_r. split; [lia|]. split; [reflexivity|].
        left. apply Z.eqb_eq in Hw. now repeat split.
      * unfold doSleep. destruct (sleep (world st) 100 f) as [w f1].
        destruct (IH f1 (emit st w (EvSleep 100))) as (k & Hk & Hlog & Hres).
        exists (S k). split; [lia|]. split.
        -- rewrite Hlog. cbn [log emit repeat]. now rewrite <- app_assoc.
        -- destruct (snd (waitLoop n f1 (emit st w (EvSleep 100)))) as [o|e];
             [exact Hres|].
           destruct Hres as [H|[H1 H2]]; [now left|right]. split; [exact H1|lia].
Qed.

(** X1.  Whatever the writers do, [waitForValidObject] sleeps at most 50
    times, 100ms each, and calls nothing else.  An object it returns is
    the one the node holds at that moment; a "writer failed" error means
    the node then has neither object nor writer; [ENOENT] comes only
    after all 50 sleeps.  No other error is returned. *)
Theorem waitForValidObject_bounded (f : File) (st : St) :
  let '(st', f', res) := waitForValidObject f st in
  exists k,
    (k <= 50)%nat
    /\ since st st' = repeat (EvSleep 100) k
    /\ match res with
       | Ok o => f_o f' = Some o
       | Failed e =>
           (e = ErrNew "can't open file - writer failed"
            /\ f_o f' = None /\ f_writers f' = 0)
           \/ (e = fuse_ENOENT /\ k = 50%nat)
       end.
Proof.
  unfold waitForValidObject.
  destruct (waitLoop_bounded 50 f st) as (k & Hk & Hlog & Hres).
  destruct (waitLoop 50 f st) as [[st' f'] res]. cbn [fst snd] in *.
  exists k. split; [exact Hk|]. split; [now apply since_app|exact Hres].
Qed.

(** *** Open *)

Lemma newReadFileHandle_fresh o st st' fh :
  newReadFileHandle cfg o st = (st', Ok fh) ->
  fh_o fh = o /\ fh_closed fh = false /\ fh_offset fh = 0
  /\ fh_readCalled fh = false
  /\ (noChecksum cfg = true -> fh_hash fh = None)
  /\ log st' = log st ++ [EvOpen o None; EvNewAccount (fh_r fh);
                          EvTransferring (Remote o)].
Proof.
  unfold newReadFileHandle, doOpen.
  destruct (objOpen (world st) o None) as [w [r|e]]; [|discriminate].
  intros H. injection H as <- <-. cbn [fh_o fh_closed fh_offset fh_readCalled fh_hash fh_r].
  repeat split.
  - intros Hn. now rewrite Hn.
  - flat_log. reflexivity.
Qed.

Lemma newReadFileHandle_failed o st st' e :
  newReadFileHandle cfg o st = (st', Failed e) ->
  objOpen (world st) o None = (world st', Failed e)
  /\ log st' = log st ++ [EvOpen o None].
Proof.
  unfold newReadFileHandle, doOpen.
  destruct (objOpen (world st) o None) as [w [r|e']]; [discriminate|].
  intros H. injection H as <- <-. now split.
Qed.

(** X2.  A read handle that [Open] returns was asked for with read-only
    flags, reads the object the node holds, and is fresh: open, at offset
    0, nothing read yet, without hash state when checksums are off.  The
    response is marked non-seekable exactly when [noSeek] is set (or it
    was marked before).  On the way [Open] only slept, opened the object
    once from the start, wrapped the stream in an account and reported
    the transfer as started. *)
Theorem Open_read_handle (f : File) (req : OpenRequest) (resp : OpenResponse)
  (st st' : St) (f' : File) (resp' : OpenResponse) (fh : ReadFileHandle) :
  Open cfg f req resp st = (st', f', resp', Ok (HRead fh)) ->
  IsReadOnly (rq_Flags req) = true
  /\ f_o f' = Some (fh_o fh)
  /\ fh_closed fh = false /\ fh_offset fh = 0 /\ fh_readCalled fh = false
  /\ (noChecksum cfg = true -> fh_hash fh = None)
  /\ rs_Flags resp' =
       (if noSeek cfg then Z.lor (rs_Flags resp) OpenNonSeekable else rs_Flags resp)
  /\ exists k,
       (k <= 50)%nat
       /\ since st st' =
            repeat (EvSleep 100) k
            ++ [EvOpen (fh_o fh) None; EvNewAccount (fh_r fh);
                EvTransferring (Remote (fh_o fh))].
Proof.
  unfold Open, waitForValidObject.
  destruct (waitLoop_bounded 50 f st) as (k & Hk & Hlog & Hres).
  destruct (waitLoop 50 f st) as [[st1 f1] [o|e]]; cbn [fst snd] in *; [|discriminate].
  destruct (IsReadOnly (rq_Flags req)) eqn:Hro.
  - destruct (newReadFileHandle cfg o st1) as [st2 [fh2|e2]] eqn:Hn;
      cbn [wrapped]; [|discriminate].
    intros H. injection H as <- <- <- <-.
    destruct (newReadFileHandle_fresh _ _ _ _ Hn) as (Ho & Hc & Hoff & Hr & Hh & Hl).
    subst o. repeat split; auto.
    + destruct (noSeek cfg); reflexivity.
    + exists k. split; [exact Hk|]. apply since_app.
      rewrite Hl, Hlog, <- app_assoc. reflexivity.
  - destruct (IsWriteOnly (rq_Flags req) || _).
    + unfold doNewWriteFileHandle.
      destruct (newWriteFileHandle _ _ _ _) as [[w2 f2] [wh|e2]]; discriminate.
    + destruct (IsReadWrite (rq_Flags req)); discriminate.
Qed.

(** X3.  Every error [Open] returns is one of six: "writer failed" or
    [ENOENT] from the wait, the constructor's error wrapped as "open for
    read" or "open for write", the read-and-write refusal, or the
    unknown-flags error carrying the request's flags.  An error of the
    backend never comes out unwrapped. *)
Theorem Open_error_kinds (f : File) (req : OpenRequest) (resp : OpenResponse)
  (st st' : St) (f' : File) (resp' : OpenResponse) (e : Err) :
  Open cfg f req resp st = (st', f', resp', Failed e) ->
  e = ErrNew "can't open file - writer failed"
  \/ e = fuse_ENOENT
  \/ (exists cause, e = ErrWrap cause "open for read"
                    /\ IsReadOnly (rq_Flags req) = true)
  \/ (exists cause, e = ErrWrap cause "open for write"
                    /\ IsReadOnly (rq_Flags req) = false)
  \/ (e = ErrNew "can't open for read and write simultaneously"
      /\ IsReadWrite (rq_Flags req) = true
      /\ Z.land (rq_Flags req) OpenTruncate = 0)
  \/ (e = ErrOpenFlags (rq_Flags req)
      /\ Z.land (rq_Flags req) OpenAccessModeMask = 3).
Proof.
  unfold Open, waitForValidObject.
  destruct (waitLoop_bounded 50 f st) as (k & Hk & Hlog & Hres).
  destruct (waitLoop 50 f st) as [[st1 f1] [o|e1]]; cbn [fst snd] in *.
  - destruct (IsReadOnly (rq_Flags req)) eqn:Hro.
    + destruct (newReadFileHandle cfg o st1) as [st2 [fh2|e2]];
        cbn [wrapped]; [discriminate|].
      intros H. injection H as _ _ _ <-. right. right. left. now exists e2.
    + destruct (IsWriteOnly (rq_Flags req)) eqn:Hwo; cbn [orb].
      * unfold doNewWriteFileHandle.
        destruct (newWriteFileHandle _ _ _ _) as [[w2 f2] [wh|e2]];
          cbn [wrapped]; [discriminate|].
        intros H. injection H as _ _ _ <-. right. right. right. left. now exists e2.
      * destruct (IsReadWrite (rq_Flags req)) eqn:Hrw; cbn [andb].
        -- destruct (Z.land (rq_Flags req) OpenTruncate =? 0) eqn:Htr; cbn [negb].
           ++ intros H. injection H as _ _ _ <-. do 4 right. left.
              apply Z.eqb_eq in Htr. now repeat split.
           ++ unfold doNewWriteFileHandle.
              destruct (newWriteFileHandle _ _ _ _) as [[w2 f2] [wh|e2]];
                cbn [wrapped]; [discriminate|].
              intros H. injection H as _ _ _ <-. right. right. right. left.
              now exists e2.
        -- intros H. injection H as _ _ _ <-. do 5 right. split; [reflexivity|].
           unfold IsReadOnly, IsWriteOnly, IsReadWrite, OpenReadOnly, OpenWriteOnly,
             OpenReadWrite, OpenAccessModeMask in *.
           apply Z.eqb_neq in Hro, Hwo, Hrw.
           assert (Hb : 0 <= Z.land (rq_Flags req) 3 <= 3).
           { split; [apply Z.land_nonneg; right; lia|].
             assert (H3 : Z.land (rq_Flags req) 3 = rq_Flags req mod 2 ^ 2)
               by (apply (Z.land_ones (rq_Flags req) 2); lia).
             rewrite H3. pose proof (Z.mod_pos_bound (rq_Flags req) (2 ^ 2)). lia. }
           lia.
  - intros H. injection H as _ _ _ <-.
    destruct Hres as [(H1 & _)|(H1 & _)]; [now left|right; now left].
Qed.

(** X4.  On a node that has neither object nor writer, [Open] fails at
    once with "writer failed", whatever the flags: it does not sleep,
    calls nothing, and leaves the node and the response as they were. *)
Theorem Open_orphan (f : File) (req : OpenRequest) (resp : OpenResponse) (st : St) :
  f_o f = None -> f_writers f = 0 ->
  Open cfg f req resp st =
    (st, f, resp, Failed (ErrNew "can't open file - writer failed")).
Proof.
  intros Ho Hw. unfold Open, waitForValidObject.
  change 50%nat with (S 49). cbn [waitLoop]. rewrite Ho, Hw. reflexivity.
Qed.

(** *** Read: what a call can cost *)

Lemma countEv_app p (a b : list Event) :
  countEv p (a ++ b) = (countEv p a + countEv p b)%nat.
Proof. unfold countEv. now rewrite filter_app, length_app. Qed.

Lemma passTrace_nil : passTrace 0 0 [].
Proof. repeat split; [constructor|cbn; lia|cbn; lia]. Qed.

Lemma passTrace_app r1 o1 r2 o2 e1 e2 :
  passTrace r1 o1 e1 -> passTrace r2 o2 e2 -> passTrace (r1 + r2) (o1 + o2) (e1 ++ e2).
Proof.
  intros (F1 & R1 & O1) (F2 & R2 & O2). repeat split.
  - now apply Forall_app.
  - rewrite countEv_app. lia.
  - rewrite countEv_app. lia.
Qed.

Lemma passTrace_mono r1 o1 r2 o2 evs :
  passTrace r1 o1 evs -> (r1 <= r2)%nat -> (o1 <= o2)%nat -> passTrace r2 o2 evs.
Proof. intros (F & R & O) Hr Ho. repeat split; [exact F|lia|lia]. Qed.

Ltac pass_trace :=
  eexists; split; [flat_log; reflexivity|];
  repeat split; [repeat constructor|cbn; lia|cbn; lia].

Lemma seek_pass fh offset reopen st :
  exists evs,
    log (fst (fst (seek fh offset reopen st))) = log st ++ evs /\ passTrace 0 1 evs.
Proof.
  unfold seek, doSeek, doClose, doOpen.
  destruct (negb reopen && rd_seeker (fh_r (set_hash fh None))).
  - destruct (streamSeek _ _ _) as [w [e|]]; cbn [fst]; pass_trace.
  - destruct (streamClose _ _) as [w c].
    destruct (objOpen _ _ _) as [w' [r|e]]; cbn [fst]; pass_trace.
Qed.

Lemma fill_pass req fh st :
  exists evs,
    log (fst (fst (fill req fh st))) = log st ++ evs /\ passTrace 1 0 evs.
Proof.
  unfold fill, ReadFull. destruct (rq_Size req <=? 0).
  - exists []. rewrite app_nil_r. split; [reflexivity|].
    apply (passTrace_mono 0 0); [apply passTrace_nil|lia|lia].
  - destruct (streamReadFull _ _ _) as [w [bs [e|]]].
    + destruct (isEOF e && _); cbn [fst]; pass_trace.
    + cbn [fst]. pass_trace.
Qed.

Lemma attempt_pass req doSeek doReopen fh st :
  exists evs,
    log (fst (fst (attempt req doSeek doReopen fh st))) = log st ++ evs
    /\ passTrace 1 1 evs.
Proof.
  unfold attempt.
  destruct (doSeek && (Size (fh_o fh) <=? rq_Offset req)).
  - exists []. rewrite app_nil_r. split; [reflexivity|].
    apply (passTrace_mono 0 0); [apply passTrace_nil|lia|lia].
  - destruct doSeek.
    + destruct (seek_pass fh (rq_Offset req) doReopen st) as (e1 & L1 & T1).
      destruct (seek fh (rq_Offset req) doReopen st) as [[st1 fh1] [e|]];
        cbn [fst] in L1 |- *.
      * exists e1. split; [exact L1|]. apply (passTrace_mono 0 1); [exact T1|lia|lia].
      * destruct (fill_pass req fh1 st1) as (e2 & L2 & T2).
        exists (e1 ++ e2). split; [now rewrite L2, L1, app_assoc|].
        apply (passTrace_app 0 1 1 0); assumption.
    + destruct (fill_pass req fh st) as (e2 & L2 & T2).
      exists e2. split; [exact L2|]. apply (passTrace_mono 1 0); [exact T2|lia|lia].
Qed.

Lemma readLoop_pass budget : forall req doSeek doReopen fh st,
  exists evs,
    log (fst (fst (readLoop budget req doSeek doReopen fh st))) = log st ++ evs
    /\ passTrace (S budget) (S budget) evs.
Proof.
  induction budget as [|k IH]; intros req doSeek doReopen fh st; cbn [readLoop];
    destruct (attempt_pass req doSeek doReopen fh st) as (e1 & L1 & T1);
    destruct (attempt req doSeek doReopen fh st) as [[st1 fh1] [|bs off|e]];
    cbn [fst] in L1 |- *;
    try (exists e1; split; [exact L1|];
         apply (passTrace_mono 1 1); [exact T1|lia|lia]).
  destruct (IH req true true fh1 st1) as (e2 & L2 & T2).
  exists (e1 ++ e2). split; [now rewrite L2, L1, app_assoc|].
  apply (passTrace_app 1 1 (S k) (S k)); assumption.
Qed.

(** X5.  One [Read] reads the stream at most [LowLevelRetries + 1] times
    and opens the object at most [LowLevelRetries + 1] times; all it
    calls are stream operations (no hash query, no accounting, no
    sleep). *)
Theorem Read_bounded_effort (fh : ReadFileHandle) (req : ReadRequest)
  (resp : ReadResponse) (st : St) :
  let st' := fst (fst (fst (Read cfg fh req resp st))) in
  let limit := Z.to_nat (LowLevelRetries cfg) in
  (countEv isReadFullEv (since st st') <= limit + 1)%nat
  /\ (countEv isOpenEv (since st st') <= limit + 1)%nat
  /\ Forall (fun ev => isPassEv ev = true) (since st st').
Proof.
  cbv zeta. destruct (fh_closed fh) eqn:Hc.
  - unfold Read. rewrite Hc. cbn [fst]. rewrite since_refl.
    repeat split; [cbn; lia|cbn; lia|constructor].
  - rewrite (Read_state cfg fh req resp st Hc).
    destruct (readLoop_pass (Z.to_nat (LowLevelRetries cfg)) req
                (negb (rq_Offset req =? fh_offset fh)) false fh st)
      as (evs & L & F & R & O).
    rewrite (since_app _ _ _ L). repeat split; [lia|lia|exact F].
Qed.

(** *** Read: the hash state sees what the caller gets *)

Lemma fill_offset req fh st :
  fh_offset (snd (fst (fill req fh st))) = fh_offset fh.
Proof.
  unfold fill. destruct (ReadFull _ _ _) as [st2 [bs [e|]]].
  - destruct (isEOF e && _); cbn [fst snd]; destruct (0 <? rq_Size req); reflexivity.
  - destruct (0 <? rq_Size req); reflexivity.
Qed.

Lemma fill_newOffset req fh st st' fh' bs newOffset :
  fill req fh st = (st', fh', AtDone bs newOffset) ->
  newOffset = Int64.add (fh_offset fh) (Z.of_nat (length bs)).
Proof.
  unfold fill. intros H.
  assert (Ho : forall b, fh_offset (if b : bool then set_readCalled fh true else fh)
                         = fh_offset fh) by (intros []; reflexivity).
  destruct (ReadFull st _ (rq_Size req)) as [st2 [bs2 [e|]]].
  - destruct (isEOF e && _); [|discriminate].
    injection H as _ _ <- <-. now rewrite Ho.
  - injection H as _ _ <- <-. now rewrite Ho.
Qed.

Lemma attempt_live req doSeek doReopen fh st h' :
  fh_hash (snd (fst (attempt req doSeek doReopen fh st))) = Some h' ->
  fh_hash fh = Some h'
  /\ fh_offset (snd (fst (attempt req doSeek doReopen fh st))) = fh_offset fh
  /\ match snd (attempt req doSeek doReopen fh st) with
     | AtEOF => Size (fh_o fh) <= rq_Offset req
     | AtDone bs off =>
         doSeek = false /\ off = Int64.add (fh_offset fh) (Z.of_nat (length bs))
     | AtFailed _ => True
     end.
Proof.
  unfold attempt.
  destruct (doSeek && (Size (fh_o fh) <=? rq_Offset req)) eqn:Hb.
  - cbn [fst snd]. intros H. apply andb_prop in Hb as [_ Hb].
    apply Z.leb_le in Hb. now repeat split.
  - destruct doSeek.
    + pose proof (seek_hash fh (rq_Offset req) doReopen st) as Hs.
      destruct (seek fh (rq_Offset req) doReopen st) as [[st1 fh1] [e|]];
        cbn [fst snd] in Hs |- *.
      * intros H. congruence.
      * rewrite fill_hash. intros H. congruence.
    + rewrite fill_hash, fill_offset. intros H. repeat split; [exact H|].
      destruct (fill req fh st) as [[st1 fh1] [|bs off|e]] eqn:Hf; cbn [snd]; auto.
      * unfold fill in Hf. destruct (ReadFull _ _ _) as [s2 [b2 [e2|]]];
          [destruct (isEOF e2 && _)|]; discriminate.
      * split; [reflexivity|]. eapply fill_newOffset. exact Hf.
Qed.

Lemma readLoop_live budget : forall req doSeek doReopen fh st h',
  fh_hash (snd (fst (readLoop budget req doSeek doReopen fh st))) = Some h' ->
  fh_hash fh = Some h'
  /\ fh_offset (snd (fst (readLoop budget req doSeek doReopen fh st))) = fh_offset fh
  /\ match snd (readLoop budget req doSeek doReopen fh st) with
     | ExitEOF => Size (fh_o fh) <= rq_Offset req
     | ExitBreak bs off None =>
         doSeek = false /\ off = Int64.add (fh_offset fh) (Z.of_nat (length bs))
     | ExitBreak _ _ (Some _) => True
     end.
Proof.
  induction budget as [|k IH]; intros req doSeek doReopen fh st h'; cbn [readLoop];
    pose proof (attempt_live req doSeek doReopen fh st) as Ha;
    pose proof (attempt_o req doSeek doReopen fh st) as Ho;
    destruct (attempt req doSeek doReopen fh st) as [[st1 fh1] [|bs off|e]];
    cbn [fst snd] in Ha, Ho |- *; try (intros H; exact (Ha h' H)).
  intros H. destruct (IH req true true fh1 st1 h' H) as (H1 & H2 & H3).
  destruct (Ha h' H1) as (H4 & H5 & _).
  split; [exact H4|]. split; [congruence|].
  destruct (snd (readLoop k req true true fh1 st1)) as [|bs off [e'|]]; auto.
  - now rewrite <- Ho.
  - destruct H3 as [H3 _]. discriminate H3.
Qed.

Lemma Read_live fh req resp st st' fh' resp' err h' :
  Read cfg fh req resp st = (st', fh', resp', err) ->
  fh_hash fh' = Some h' ->
  exists h,
    fh_hash fh = Some h
    /\ ((h' = h /\ fh_offset fh' = fh_offset fh
         /\ (err <> None \/ (Size (fh_o fh) <= rq_Offset req /\ Data resp' = [])))
        \/ (rq_Offset req = fh_offset fh
            /\ h' = fst (hashWrite h (Data resp'))
            /\ err = snd (hashWrite h (Data resp'))
            /\ fh_offset fh' =
                 Int64.add (fh_offset fh) (Z.of_nat (length (Data resp'))))).
Proof.
  unfold Read. destruct (fh_closed fh).
  - intros H Hh. injection H as _ <- _ <-. exists h'. split; [exact Hh|].
    left. repeat split. left. discriminate.
  - pose proof (readLoop_live (Z.to_nat (LowLevelRetries cfg)) req
                  (negb (rq_Offset req =? fh_offset fh)) false fh st) as Hl.
    destruct (readLoop _ _ _ _ _ _) as [[st1 fh1] [|bs off [e|]]];
      cbn [fst snd] in Hl.
    + intros H Hh. injection H as _ <- <- <-.
      destruct (Hl h' Hh) as (H1 & H2 & H3). exists h'. split; [exact H1|].
      left. repeat split; auto.
    + intros H Hh. injection H as _ <- _ <-.
      destruct (Hl h' Hh) as (H1 & H2 & _). exists h'. split; [exact H1|].
      left. repeat split; auto. left. discriminate.
    + cbn [set_offset fh_hash Data].
      destruct (fh_hash fh1) as [h|] eqn:Hh1.
      * destruct (hashWrite h bs) as [h2 e2] eqn:Hw.
        intros H Hh. injection H as _ <- <- <-. cbn [set_hash fh_hash] in Hh.
        injection Hh as <-.
        destruct (Hl h eq_refl) as (H1 & H2 & H3 & H4).
        exists h. split; [exact H1|]. right. cbn [Data set_hash fh_offset].
        rewrite Hw. cbn [fst snd]. repeat split; auto.
        apply negb_false_iff, Z.eqb_eq in H3. exact H3.
      * intros H Hh. injection H as _ <- _ _. cbn in Hh. congruence.
Qed.

(** X6.  When a [Read] succeeds and the handle still has hash state, it
    had hash state before, and one of two things happened.  Either the
    request was at or past the end and nothing was delivered: hash state
    and offset are as before.  Or the request continued exactly at the
    handle's offset, and the hash state is the old one with the returned
    bytes, and only those, written to it, while the offset advanced by
    their number. *)
Theorem Read_feeds_hash (fh : ReadFileHandle) (req : ReadRequest)
  (resp : ReadResponse) (st st' : St) (fh' : ReadFileHandle)
  (resp' : ReadResponse) (h' : MultiHasher) :
  Read cfg fh req resp st = (st', fh', resp', None) ->
  fh_hash fh' = Some h' ->
  exists h,
    fh_hash fh = Some h
    /\ ((Size (fh_o fh) <= rq_Offset req /\ Data resp' = []
         /\ h' = h /\ fh_offset fh' = fh_offset fh)
        \/ (rq_Offset req = fh_offset fh
            /\ h' = fst (hashWrite h (Data resp'))
            /\ fh_offset fh' =
                 Int64.add (fh_offset fh) (Z.of_nat (length (Data resp'))))).
Proof.
  intros H Hh. destruct (Read_live _ _ _ _ _ _ _ _ _ H Hh) as (h & H1 & Hcase).
  exists h. split; [exact H1|].
  destruct Hcase as [(E1 & E2 & [E3|(E3 & E4)])|(E1 & E2 & _ & E4)].
  - now contradiction E3.
  - left. now repeat split.
  - right. now repeat split.
Qed.

Lemma readLoop_o budget : forall req doSeek doReopen fh st,
  fh_o (snd (fst (readLoop budget req doSeek doReopen fh st))) = fh_o fh.
Proof.
  induction budget as [|k IH]; intros req doSeek doReopen fh st; cbn [readLoop];
    pose proof (attempt_o req doSeek doReopen fh st) as Ho;
    destruct (attempt req doSeek doReopen fh st) as [[st1 fh1] [|bs off|e]];
    cbn [fst snd] in Ho |- *; auto.
  now rewrite IH.
Qed.

Lemma Read_o fh req resp st :
  fh_o (snd (fst (fst (Read cfg fh req resp st)))) = fh_o fh.
Proof.
  unfold Read. destruct (fh_closed fh); [reflexivity|].
  pose proof (readLoop_o (Z.to_nat (LowLevelRetries cfg)) req
                (negb (rq_Offset req =? fh_offset fh)) false fh st) as Hl.
  destruct (readLoop _ _ _ _ _ _) as [[st1 fh1] [|bs off [e|]]];
    cbn [fst snd] in Hl |- *; auto.
  cbn [set_offset fh_hash]. destruct (fh_hash fh1) as [h|]; [|exact Hl].
  destruct (hashWrite h _). exact Hl.
Qed.

(** X7.  After a series of successful reads inside the object, a handle
    that still has hash state has seen no gap and no overlap: the hash
    state is the initial one with the returned chunks written to it in
    order, and the offset is the initial one advanced over them. *)
Theorem readAll_feeds_hash (reqs : list ReadRequest) :
  forall (fh : ReadFileHandle) (st st' : St) (fh' : ReadFileHandle)
         (chunks : list (list byte)) (h' : MultiHasher),
  readAll cfg reqs fh st = Some (st', fh', chunks) ->
  Forall (fun req => rq_Offset req < Size (fh_o fh)) reqs ->
  fh_hash fh' = Some h' ->
  exists h,
    fh_hash fh = Some h
    /\ h' = fed h chunks
    /\ fh_offset fh' = advanced (fh_offset fh) chunks.
Proof.
  induction reqs as [|req rest IH]; intros fh st st' fh' chunks h' H Hin Hh;
    cbn [readAll] in H.
  - injection H as _ <- <-. exists h'. now repeat split.
  - pose proof (Read_o fh req {| Data := [] |} st) as Ho.
    destruct (Read cfg fh req {| Data := [] |} st) as [[[st1 fh1] resp1] [e|]] eqn:HR;
      [discriminate|]. cbn [fst snd] in Ho.
    destruct (readAll cfg rest fh1 st1) as [[[st2 fh2] chunks2]|] eqn:HA;
      [|discriminate].
    injection H as <- <- <-.
    inversion Hin as [|? ? Hreq Hrest]; subst.
    destruct (IH fh1 st1 st2 fh2 chunks2 h' HA) as (h1 & H1 & H2 & H3);
      [now rewrite Ho|exact Hh|].
    destruct (Read_live _ _ _ _ _ _ _ _ _ HR H1) as (h & E0 & Hcase).
    exists h. split; [exact E0|].
    destruct Hcase as [(_ & _ & [E|(E & _)])|(_ & E2 & _ & E4)].
    + now contradiction E.
    + lia.
    + unfold fed, advanced in *. cbn [fold_left]. now rewrite <- E2, <- E4.
Qed.

(** X8.  An empty read at the handle's own offset touches nothing: no
    call is made, the offset stays, and the handle is not marked as read
    (so it alone never enables verification).  It returns an empty
    result, and fails only if writing no bytes to the hash state
    fails. *)
Theorem Read_empty (fh : ReadFileHandle) (req : ReadRequest)
  (resp : ReadResponse) (st : St) :
  fh_closed fh = false ->
  rq_Size req = 0 ->
  rq_Offset req = fh_offset fh ->
  Int64.in_range (fh_offset fh) ->
  let '(st', fh', resp', err) := Read cfg fh req resp st in
  st' = st /\ Data resp' = []
  /\ fh_offset fh' = fh_offset fh
  /\ fh_readCalled fh' = fh_readCalled fh
  /\ fh_r fh' = fh_r fh
  /\ err = match fh_hash fh with
           | Some h => snd (hashWrite h [])
           | None => None
           end.
Proof.
  intros Hc Hsz Hoff Hr. unfold Read. rewrite Hc, Hoff, Z.eqb_refl. cbn [negb].
  assert (Ha : attempt req false false fh st = (st, fh, AtDone [] (fh_offset fh))).
  { unfold attempt, fill, ReadFull. cbn [andb]. rewrite Hsz. cbn [Z.ltb Z.leb Z.compare].
    cbn [length Z.of_nat]. unfold Int64.add. rewrite Z.add_0_r.
    now rewrite wrap_in_range by exact Hr. }
  assert (Hl : forall k, readLoop k req false false fh st =
                         (st, fh, ExitBreak [] (fh_offset fh) None)).
  { intros [|k]; cbn [readLoop]; now rewrite Ha. }
  rewrite Hl. cbn [set_offset fh_hash Data].
  destruct (fh_hash fh) as [h|].
  - destruct (hashWrite h []) as [h2 e2]. now repeat split.
  - now repeat split.
Qed.

(** *** The life of a handle *)

Lemma countEv_none p q (evs : list Event) :
  Forall (fun ev => p ev = true) evs ->
  (forall ev, p ev = true -> q ev = false) ->
  countEv q evs = 0%nat.
Proof.
  intros F Hpq. unfold countEv. induction F as [|ev evs Hev _ IH]; [reflexivity|].
  cbn [filter]. now rewrite (Hpq ev Hev).
Qed.

Lemma pass_not_done ev : isPassEv ev = true -> isDoneEv ev = false.
Proof. destruct ev; cbn; congruence. Qed.

Lemma hash_not_done ev : isHashEv ev = true -> isDoneEv ev = false.
Proof. destruct ev; cbn; congruence. Qed.

Lemma hash_not_close ev : isHashEv ev = true -> isCloseEv ev = false.
Proof. destruct ev; cbn; congruence. Qed.

Lemma hash_not_stream ev : isHashEv ev = true -> isStreamEv ev = false.
Proof. destruct ev; cbn; congruence. Qed.

Lemma seek_closed fh offset reopen st :
  fh_closed (snd (fst (seek fh offset reopen st))) = fh_closed fh.
Proof.
  unfold seek, doSeek, doClose, doOpen.
  destruct (negb reopen && rd_seeker (fh_r (set_hash fh None))).
  - destruct (streamSeek _ _ _) as [w [e|]]; reflexivity.
  - destruct (streamClose _ _) as [w c].
    destruct (objOpen _ _ _) as [w' [r|e]]; reflexivity.
Qed.

Lemma fill_closed req fh st :
  fh_closed (snd (fst (fill req fh st))) = fh_closed fh.
Proof.
  unfold fill. destruct (ReadFull _ _ _) as [st2 [bs [e|]]].
  - destruct (isEOF e && _); cbn [fst snd]; destruct (0 <? rq_Size req); reflexivity.
  - destruct (0 <? rq_Size req); reflexivity.
Qed.

Lemma attempt_closed req doSeek doReopen fh st :
  fh_closed (snd (fst (attempt req doSeek doReopen fh st))) = fh_closed fh.
Proof.
  unfold attempt.
  destruct (doSeek && (Size (fh_o fh) <=? rq_Offset req)); [reflexivity|].
  destruct doSeek.
  - pose proof (seek_closed fh (rq_Offset req) doReopen st) as Hs.
    destruct (seek fh (rq_Offset req) doReopen st) as [[st1 fh1] [e|]];
      cbn [fst snd] in Hs |- *; [exact Hs|].
    now rewrite fill_closed.
  - now rewrite fill_closed.
Qed.

Lemma readLoop_closed budget : forall req doSeek doReopen fh st,
  fh_closed (snd (fst (readLoop budget req doSeek doReopen fh st))) = fh_closed fh.
Proof.
  induction budget as [|k IH]; intros req doSeek doReopen fh st; cbn [readLoop];
    pose proof (attempt_closed req doSeek doReopen fh st) as Ha;
    destruct (attempt req doSeek doReopen fh st) as [[st1 fh1] [|bs off|e]];
    cbn [fst snd] in Ha |- *; auto.
  now rewrite IH.
Qed.

Lemma Read_closed fh req resp st :
  fh_closed (snd (fst (fst (Read cfg fh req resp st)))) = fh_closed fh.
Proof.
  unfold Read. destruct (fh_closed fh) eqn:Hc; [exact Hc|].
  pose proof (readLoop_closed (Z.to_nat (LowLevelRetries cfg)) req
                (negb (rq_Offset req =? fh_offset fh)) false fh st) as Hl.
  rewrite Hc in Hl.
  destruct (readLoop _ _ _ _ _ _) as [[st1 fh1] [|bs off [e|]]];
    cbn [fst snd] in Hl |- *; auto.
  cbn [set_offset fh_hash]. destruct (fh_hash fh1) as [h|]; [|exact Hl].
  destruct (hashWrite h _). exact Hl.
Qed.

Lemma Read_pass fh req resp st :
  exists evs,
    log (fst (fst (fst (Read cfg fh req resp st)))) = log st ++ evs
    /\ Forall (fun ev => isPassEv ev = true) evs.
Proof.
  destruct (fh_closed fh) eqn:Hc.
  - unfold Read. rewrite Hc. exists []. rewrite app_nil_r. now split.
  - rewrite (Read_state cfg fh req resp st Hc).
    destruct (readLoop_pass (Z.to_nat (LowLevelRetries cfg)) req
                (negb (rq_Offset req =? fh_offset fh)) false fh st)
      as (evs & L & F & _).
    now exists evs.
Qed.

Lemma checkSums_hashes o sums : forall st,
  exists evs,
    log (fst (checkSums o sums st)) = log st ++ evs
    /\ Forall (fun ev => isHashEv ev = true) evs.
Proof.
  induction sums as [|[t d] rest IH]; intros st; cbn [checkSums doHash].
  - exists []. rewrite app_nil_r. now split.
  - destruct (objHash (world st) o t) as [s|e].
    + destruct (negb (HashEquals d s)).
      * exists [EvHash o t]. split; [reflexivity|]. now repeat constructor.
      * destruct (IH (note st (EvHash o t))) as (evs & L & F).
        exists (EvHash o t :: evs). split.
        -- rewrite L. flat_log. reflexivity.
        -- now constructor.
    + exists [EvHash o t]. split; [reflexivity|]. now repeat constructor.
Qed.

Lemma checkSums_same_world o sums : forall st1 st2,
  world st1 = world st2 ->
  snd (checkSums o sums st1) = snd (checkSums o sums st2).
Proof.
  induction sums as [|[t d] rest IH]; intros st1 st2 Hw; cbn [checkSums doHash];
    [reflexivity|].
  rewrite Hw. destruct (objHash (world st2) o t) as [s|e]; [|reflexivity].
  destruct (negb (HashEquals d s)); [reflexivity|]. apply IH. cbn. exact Hw.
Qed.

Lemma checkHash_hashes fh st :
  world (fst (checkHash fh st)) = world st
  /\ exists evs,
       log (fst (checkHash fh st)) = log st ++ evs
       /\ Forall (fun ev => isHashEv ev = true) evs.
Proof.
  unfold checkHash. destruct (fh_hash fh) as [h|].
  - destruct (negb (fh_readCalled fh) || (fh_offset fh <? Size (fh_o fh))).
    + split; [reflexivity|]. exists []. rewrite app_nil_r. now split.
    + split; [apply checkSums_world|apply checkSums_hashes].
  - split; [reflexivity|]. exists []. rewrite app_nil_r. now split.
Qed.

Lemma checkHash_same_world fh b st1 st2 :
  world st1 = world st2 ->
  snd (checkHash (set_closed fh b) st1) = snd (checkHash fh st2).
Proof.
  intros Hw. unfold checkHash. cbn [set_closed fh_hash fh_readCalled fh_offset fh_o].
  destruct (fh_hash fh) as [h|]; [|reflexivity].
  destruct (negb (fh_readCalled fh) || (fh_offset fh <? Size (fh_o fh)));
    [reflexivity|].
  now apply checkSums_same_world.
Qed.

Lemma flushes_run n : forall fh st,
  snd (run cfg (repeat OpFlush n) fh st) = fh
  /\ exists evs,
       log (fst (run cfg (repeat OpFlush n) fh st)) = log st ++ evs
       /\ Forall (fun ev => isHashEv ev = true) evs.
Proof.
  induction n as [|n IH]; intros fh st; cbn [repeat run].
  - split; [reflexivity|]. exists []. rewrite app_nil_r. now split.
  - cbn [step]. unfold Flush.
    destruct (checkHash_hashes fh st) as (_ & e1 & L1 & F1).
    destruct (checkHash fh st) as [st1 [e|]]; cbn [fst] in L1;
      destruct (IH fh st1) as (Hfh & e2 & L2 & F2);
      (split; [exact Hfh|]); exists (e1 ++ e2);
      (split; [now rewrite L2, L1, app_assoc|now apply Forall_app]).
Qed.

(** X9.  [Flush] can be repeated: any number of flushes in a row leave
    the handle exactly as it was (in particular open, at the same offset,
    with the same hash state) and make only hash queries: no stream is
    touched and nothing is reported to the accounting. *)
Theorem Flush_repeatable (n : nat) (fh : ReadFileHandle) (st : St) :
  let '(st', fh') := run cfg (repeat OpFlush n) fh st in
  fh' = fh
  /\ Forall (fun ev => isHashEv ev = true) (since st st')
  /\ countEv isStreamEv (since st st') = 0%nat
  /\ countEv isDoneEv (since st st') = 0%nat.
Proof.
  destruct (flushes_run n fh st) as (Hfh & evs & L & F).
  destruct (run cfg (repeat OpFlush n) fh st) as [st' fh']. cbn [fst snd] in *.
  rewrite (since_app _ _ _ L). split; [exact Hfh|]. split; [exact F|]. split.
  - exact (countEv_none _ _ evs F hash_not_stream).
  - exact (countEv_none _ _ evs F hash_not_done).
Qed.

Lemma close_trace fh st :
  fh_closed fh = false ->
  exists hashes,
    Forall (fun ev => isHashEv ev = true) hashes
    /\ snd (fst (close fh st)) = set_closed fh true
    /\ match snd (checkHash fh st) with
       | Some e =>
           snd (close fh st) = Some e
           /\ log (fst (fst (close fh st))) =
                log st ++ EvDoneTransferring (Remote (fh_o fh)) :: hashes
       | None =>
           snd (close fh st) = snd (streamClose (world st) (fh_r fh))
           /\ log (fst (fst (close fh st))) =
                log st ++ EvDoneTransferring (Remote (fh_o fh)) :: hashes
                       ++ [EvClose (fh_r fh)]
       end.
Proof.
  intros Hc. unfold close. rewrite Hc.
  set (st0 := note st (EvDoneTransferring (Remote (fh_o (set_closed fh true))))).
  destruct (checkHash_hashes (set_closed fh true) st0) as (Hw & evs & L & F).
  pose proof (checkHash_same_world fh true st0 st eq_refl) as Hv.
  exists evs. split; [exact F|].
  destruct (checkHash (set_closed fh true) st0) as [st1 [e|]]; cbn [fst snd] in *;
    rewrite <- Hv.
  - repeat split. rewrite L. subst st0. flat_log. reflexivity.
  - unfold doClose. rewrite Hw. subst st0.
    cbn [world note emit set_closed fh_r fh_o log] in *.
    destruct (streamClose (world st) (fh_r fh)) as [w err]. cbn [fst snd].
    split; [reflexivity|]. split; [reflexivity|].
    cbn [log emit]. rewrite L. repeat rewrite <- app_assoc. reflexivity.
Qed.

(** X10.  The first [Release] of a handle marks it closed and reports
    the end of the transfer exactly once, whatever the outcome.  When the
    hash check passes the stream is closed, once, and the result is that
    of closing it; when the check fails its error is returned and the
    stream is not closed. *)
Theorem Release_first (fh : ReadFileHandle) (st : St) :
  fh_closed fh = false ->
  let '(st', fh', err) := Release fh st in
  fh' = set_closed fh true
  /\ countEv isDoneEv (since st st') = 1%nat
  /\ match snd (checkHash fh st) with
     | Some e => err = Some e /\ countEv isCloseEv (since st st') = 0%nat
     | None =>
         err = snd (streamClose (world st) (fh_r fh))
         /\ countEv isCloseEv (since st st') = 1%nat
     end.
Proof.
  intros Hc. unfold Release. rewrite Hc.
  destruct (close_trace fh st Hc) as (hs & F & Hfh & Hcase).
  destruct (close fh st) as [[st' fh'] err]. cbn [fst snd] in *.
  split; [exact Hfh|].
  pose proof (countEv_none _ _ hs F hash_not_done) as Hd.
  pose proof (countEv_none _ _ hs F hash_not_close) as Hcl.
  destruct (snd (checkHash fh st)) as [e|]; destruct Hcase as [He L];
    rewrite (since_app _ _ _ L).
  - split; [|split; [exact He|]].
    + change (EvDoneTransferring (Remote (fh_o fh)) :: hs)
        with ([EvDoneTransferring (Remote (fh_o fh))] ++ hs).
      rewrite countEv_app, Hd. reflexivity.
    + change (EvDoneTransferring (Remote (fh_o fh)) :: hs)
        with ([EvDoneTransferring (Remote (fh_o fh))] ++ hs).
      rewrite countEv_app, Hcl. reflexivity.
  - split; [|split; [exact He|]].
    + change (EvDoneTransferring (Remote (fh_o fh)) :: hs ++ [EvClose (fh_r fh)])
        with ([EvDoneTransferring (Remote (fh_o fh))] ++ hs ++ [EvClose (fh_r fh)]).
      rewrite !countEv_app, Hd. reflexivity.
    + change (EvDoneTransferring (Remote (fh_o fh)) :: hs ++ [EvClose (fh_r fh)])
        with ([EvDoneTransferring (Remote (fh_o fh))] ++ hs ++ [EvClose (fh_r fh)]).
      rewrite !countEv_app, Hcl. reflexivity.
Qed.

Lemma closed_step op fh st :
  fh_closed fh = true -> external op = true ->
  snd (step cfg op fh st) = fh
  /\ world (fst (step cfg op fh st)) = world st
  /\ exists evs,
       log (fst (step cfg op fh st)) = log st ++ evs
       /\ Forall (fun ev => isHashEv ev = true) evs.
Proof.
  intros Hc Hx. destruct op as [offset reopen|req resp| |]; [discriminate| | |];
    cbn [step].
  - unfold Read. rewrite Hc. cbn [fst snd]. repeat split.
    exists []. rewrite app_nil_r. now split.
  - unfold Flush. destruct (checkHash_hashes fh st) as (Hw & evs & L & F).
    destruct (checkHash fh st) as [st1 [e|]]; cbn [fst snd] in *;
      repeat split; auto; now exists evs.
  - unfold Release. rewrite Hc. cbn [fst snd]. repeat split.
    exists []. rewrite app_nil_r. now split.
Qed.

Lemma closed_run ops : forall fh st,
  fh_closed fh = true -> forallb external ops = true ->
  snd (run cfg ops fh st) = fh
  /\ world (fst (run cfg ops fh st)) = world st
  /\ exists evs,
       log (fst (run cfg ops fh st)) = log st ++ evs
       /\ Forall (fun ev => isHashEv ev = true) evs.
Proof.
  induction ops as [|op ops IH]; intros fh st Hc Hx; cbn [run].
  - repeat split. exists []. rewrite app_nil_r. now split.
  - cbn [forallb] in Hx. apply andb_prop in Hx as [Hx1 Hx2].
    destruct (closed_step op fh st Hc Hx1) as (Hfh & Hw & e1 & L1 & F1).
    destruct (step cfg op fh st) as [st1 fh1]. cbn [fst snd] in *. subst fh1.
    destruct (IH fh st1 Hc Hx2) as (Hfh2 & Hw2 & e2 & L2 & F2).
    split; [exact Hfh2|]. split; [congruence|].
    exists (e1 ++ e2). split; [now rewrite L2, L1, app_assoc|now apply Forall_app].
Qed.

(** X11.  A closed handle is inert: whatever reads, flushes and releases
    follow, the handle stays exactly as it is and the only calls made are
    hash queries (by [Flush]); no stream is opened, read, repositioned or
    closed any more. *)
Theorem closed_handle_inert (ops : list Op) (fh : ReadFileHandle) (st : St) :
  fh_closed fh = true ->
  forallb external ops = true ->
  let '(st', fh') := run cfg ops fh st in
  fh' = fh
  /\ Forall (fun ev => isHashEv ev = true) (since st st')
  /\ countEv isStreamEv (since st st') = 0%nat.
Proof.
  intros Hc Hx. destruct (closed_run ops fh st Hc Hx) as (Hfh & _ & evs & L & F).
  destruct (run cfg ops fh st) as [st' fh']. cbn [fst snd] in *.
  rewrite (since_app _ _ _ L). repeat split; auto.
  exact (countEv_none _ _ evs F hash_not_stream).
Qed.

(** X12.  When the hash check fails at the first [Release], the stream
    of the handle is never closed: not by that [Release], which returns
    the error of the check, and not by any read, flush or release
    after it. *)
Theorem failed_check_leaves_stream_open (ops : list Op) (fh : ReadFileHandle)
  (st : St) (e : Err) :
  fh_closed fh = false ->
  snd (checkHash fh st) = Some e ->
  forallb external ops = true ->
  let '(st1, fh1, err) := Release fh st in
  let '(st2, fh2) := run cfg ops fh1 st1 in
  err = Some e
  /\ fh_closed fh2 = true
  /\ countEv isCloseEv (since st st2) = 0%nat.
Proof.
  intros Hc Hv Hx. unfold Release. rewrite Hc.
  destruct (close_trace fh st Hc) as (hs & F & Hfh & Hcase).
  rewrite Hv in Hcase. destruct Hcase as [He L].
  destruct (close fh st) as [[st1 fh1] err]. cbn [fst snd] in *. subst fh1 err.
  destruct (closed_run ops (set_closed fh true) st1 eq_refl Hx)
    as (Hfh2 & _ & evs & L2 & F2).
  destruct (run cfg ops (set_closed fh true) st1) as [st2 fh2]. cbn [fst snd] in *.
  subst fh2. split; [reflexivity|]. split; [reflexivity|].
  assert (Hlog : log st2 = log st ++ [EvDoneTransferring (Remote (fh_o fh))]
                                  ++ hs ++ evs).
  { rewrite L2, L. rewrite <- app_assoc. reflexivity. }
  rewrite (since_app _ _ _ Hlog), !countEv_app.
  rewrite (countEv_none _ _ hs F hash_not_close).
  rewrite (countEv_none _ _ evs F2 hash_not_close). reflexivity.
Qed.

Lemma step_done op fh st :
  exists evs,
    log (fst (step cfg op fh st)) = log st ++ evs
    /\ (countEv isDoneEv evs + Nat.b2n (fh_closed fh) =
        Nat.b2n (fh_closed (snd (step cfg op fh st))))%nat.
Proof.
  destruct op as [offset reopen|req resp| |]; cbn [step].
  - destruct (seek_pass fh offset reopen st) as (evs & L & F & _).
    pose proof (seek_closed fh offset reopen st) as Hc.
    destruct (seek fh offset reopen st) as [[st1 fh1] e]. cbn [fst snd] in *.
    exists evs. split; [exact L|].
    rewrite (countEv_none _ _ evs F pass_not_done), Hc. reflexivity.
  - destruct (Read_pass fh req resp st) as (evs & L & F).
    pose proof (Read_closed fh req resp st) as Hc.
    destruct (Read cfg fh req resp st) as [[[st1 fh1] r1] e]. cbn [fst snd] in *.
    exists evs. split; [exact L|].
    rewrite (countEv_none _ _ evs F pass_not_done), Hc. reflexivity.
  - unfold Flush. destruct (checkHash_hashes fh st) as (_ & evs & L & F).
    destruct (checkHash fh st) as [st1 [e|]]; cbn [fst snd] in *;
      exists evs; (split; [exact L|]);
      now rewrite (countEv_none _ _ evs F hash_not_done).
  - unfold Release. destruct (fh_closed fh) eqn:Hc.
    + exists []. rewrite app_nil_r. cbn [fst snd]. rewrite Hc. now split.
    + destruct (close_trace fh st Hc) as (hs & F & Hfh & Hcase).
      pose proof (countEv_none _ _ hs F hash_not_done) as Hd.
      destruct (close fh st) as [[st1 fh1] err]. cbn [fst snd] in *. subst fh1.
      destruct (snd (checkHash fh st)) as [e|]; destruct Hcase as [_ L];
        eexists; (split; [exact L|]); cbn [set_closed fh_closed Nat.b2n].
      * change (EvDoneTransferring (Remote (fh_o fh)) :: hs)
          with ([EvDoneTransferring (Remote (fh_o fh))] ++ hs).
        rewrite countEv_app, Hd. reflexivity.
      * change (EvDoneTransferring (Remote (fh_o fh)) :: hs ++ [EvClose (fh_r fh)])
          with ([EvDoneTransferring (Remote (fh_o fh))] ++ hs ++ [EvClose (fh_r fh)]).
        rewrite !countEv_app, Hd. reflexivity.
Qed.

Lemma run_done ops : forall fh st,
  exists evs,
    log (fst (run cfg ops fh st)) = log st ++ evs
    /\ (countEv isDoneEv evs + Nat.b2n (fh_closed fh) =
        Nat.b2n (fh_closed (snd (run cfg ops fh st))))%nat.
Proof.
  induction ops as [|op ops IH]; intros fh st; cbn [run].
  - exists []. rewrite app_nil_r. now split.
  - destruct (step_done op fh st) as (e1 & L1 & C1).
    destruct (step cfg op fh st) as [st1 fh1]. cbn [fst snd] in *.
    destruct (IH fh1 st1) as (e2 & L2 & C2).
    exists (e1 ++ e2). split; [now rewrite L2, L1, app_assoc|].
    rewrite countEv_app. lia.
Qed.

(** X13.  Over any series of seeks, reads, flushes and releases on an
    open handle, the end of the transfer is reported to the accounting
    exactly once if the handle ends up closed and not at all if it is
    still open: never twice, and never without the handle being closed. *)
Theorem done_transferring_once (ops : list Op) (fh : ReadFileHandle) (st : St) :
  fh_closed fh = false ->
  let '(st', fh') := run cfg ops fh st in
  countEv isDoneEv (since st st') = (if fh_closed fh' then 1 else 0)%nat.
Proof.
  intros Hc. destruct (run_done ops fh st) as (evs & L & C).
  destruct (run cfg ops fh st) as [st' fh']. cbn [fst snd] in *.
  rewrite (since_app _ _ _ L). rewrite Hc in C. cbn [Nat.b2n] in C.
  destruct (fh_closed fh'); cbn [Nat.b2n] in C; lia.
Qed.

(** *** Attributes *)

Lemma uint64_small z : 0 <= z < 2 ^ 64 -> Uint64.wrap z = z.
Proof. intros H. unfold Uint64.wrap. now apply Z.mod_small. Qed.

Lemma Attr_blocks_of f a st :
  at_Blocks (fst (Attr cfg own f a st)) =
  Uint64.add (at_Size (fst (Attr cfg own f a st))) 511 / 512.
Proof.
  unfold Attr. destruct (f_o f) as [o|]; [|reflexivity].
  destruct (negb (noModTime cfg)); reflexivity.
Qed.

Lemma Attr_size_of f a st :
  at_Size (fst (Attr cfg own f a st)) =
  Uint64.wrap (match f_o f with Some o => Size o | None => f_size f end).
Proof.
  unfold Attr. destruct (f_o f) as [o|]; [|reflexivity].
  destruct (negb (noModTime cfg)); reflexivity.
Qed.

(** X14.  [Attr] never fails and reports the fixed owner and mode.  For
    a size that is not negative (the object's if the node has one, the
    write counter otherwise) it reports that size, and as block count the
    least number of 512-byte blocks that hold it. *)
Theorem Attr_size_blocks (f : File) (a : FuseAttr) (st : St) :
  let size := match f_o f with Some o => Size o | None => f_size f end in
  0 <= size <= Int64.max_signed ->
  let a' := fst (Attr cfg own f a st) in
  snd (Attr cfg own f a st) = None
  /\ at_Size a' = size
  /\ 512 * (at_Blocks a' - 1) < size <= 512 * at_Blocks a'
  /\ at_Uid a' = uid own /\ at_Gid a' = gid own /\ at_Mode a' = filePerms own.
Proof.
  cbv zeta. intros Hs. unfold Int64.max_signed in Hs.
  split; [reflexivity|].
  assert (Hsz : at_Size (fst (Attr cfg own f a st)) =
                match f_o f with Some o => Size o | None => f_size f end).
  { rewrite Attr_size_of. apply uint64_small. lia. }
  split; [exact Hsz|]. split.
  - rewrite Attr_blocks_of, Hsz. unfold Uint64.add.
    rewrite uint64_small by lia.
    set (s := match f_o f with Some o => Size o | None => f_size f end) in *.
    pose proof (Z.div_mod (s + 511) 512 ltac:(lia)) as Hd.
    pose proof (Z.mod_pos_bound (s + 511) 512 ltac:(lia)) as Hm.
    lia.
  - unfold Attr. destruct (f_o f) as [o|]; [|now repeat split].
    destruct (negb (noModTime cfg)); now repeat split.
Qed.

Lemma writtenAll_size ns : forall f,
  Forall (fun n => 0 <= n) ns ->
  0 <= f_size f ->
  f_size f + fold_right Z.add 0 ns <= Int64.max_signed ->
  f_size (writtenAll f ns) = f_size f + fold_right Z.add 0 ns
  /\ f_o (writtenAll f ns) = f_o f
  /\ f_writers (writtenAll f ns) = f_writers f.
Proof.
  unfold writtenAll.
  induction ns as [|n ns IH]; intros f Hall H0 Hmax; cbn [fold_left fold_right] in *.
  - repeat split. lia.
  - inversion Hall as [|? ? Hn Hrest]; subst.
    assert (Hsum : 0 <= fold_right Z.add 0 ns).
    { clear -Hrest. induction Hrest; cbn; lia. }
    assert (Hw : f_size (written f n) = f_size f + n).
    { unfold written. cbn [f_size]. unfold Int64.add. apply wrap_in_range.
      unfold Int64.in_range, Int64.min_signed, Int64.max_signed in *. lia. }
    destruct (IH (written f n) Hrest) as (H1 & H2 & H3); [lia|lia|].
    rewrite H1, H2, H3, Hw. repeat split. lia.
Qed.

(** X15.  While a new file is being written and has no object yet,
    [Attr] reports as its size the total of what [written] has counted
    (for counts that are not negative and a total within [int64]), and
    does not touch the four timestamps. *)
Theorem Attr_while_writing (d : Dir) (ns : list Z) (a : FuseAttr) (st : St) :
  Forall (fun n => 0 <= n) ns ->
  fold_right Z.add 0 ns <= Int64.max_signed ->
  let a' := fst (Attr cfg own (writtenAll (newFile d None) ns) a st) in
  at_Size a' = fold_right Z.add 0 ns
  /\ at_Atime a' = at_Atime a /\ at_Mtime a' = at_Mtime a
  /\ at_Ctime a' = at_Ctime a /\ at_Crtime a' = at_Crtime a.
Proof.
  cbv zeta. intros Hall Hmax.
  destruct (writtenAll_size ns (newFile d None) Hall) as (H1 & H2 & _);
    [cbn [newFile f_size]; lia|cbn [newFile f_size]; lia|].
  cbn [newFile f_size f_o] in H1, H2.
  assert (Hsum : 0 <= fold_right Z.add 0 ns).
  { clear -Hall. induction Hall; cbn; lia. }
  split.
  - rewrite Attr_size_of, H2, H1. apply uint64_small.
    unfold Int64.max_signed in Hmax. lia.
  - unfold Attr. rewrite H2. now repeat split.
Qed.

(** X16.  Once [setObject] has installed the object, the node is valid:
    [waitForValidObject] returns that object at once, without sleeping,
    and [Attr] reports the object's size, whatever [written] had counted,
    and (unless modification times are off) the object's modification
    time in all four time fields.  The writer count and the log are not
    changed by [setObject]. *)
Theorem setObject_installs (f : File) (o : Object) (a : FuseAttr) (st : St) :
  let '(st1, f1) := setObject f o st in
  log st1 = log st
  /\ f_writers f1 = f_writers f
  /\ waitForValidObject f1 st1 = (st1, f1, Ok o)
  /\ at_Size (fst (Attr cfg own f1 a st1)) = Uint64.wrap (Size o)
  /\ (noModTime cfg = false ->
      let t := objModTime (world st1) o in
      let a' := fst (Attr cfg own f1 a st1) in
      at_Atime a' = t /\ at_Mtime a' = t /\ at_Ctime a' = t /\ at_Crtime a' = t).
Proof.
  unfold setObject. cbn [f_d].
  split; [reflexivity|]. split; [reflexivity|]. split; [reflexivity|].
  split.
  - rewrite Attr_size_of. reflexivity.
  - intros Hn. unfold Attr. cbn [f_o]. rewrite Hn. cbn [negb]. now repeat split.
Qed.

(** *** Setattr *)

(** X17.  [Setattr] calls [SetModTime] only when modification times are
    on, only on the object the node holds after the wait, and only with
    a time that is not zero: the current time when the request says
    "now" (even if it also carries a time), otherwise the time the request
    carries.  A request with neither of the two bits makes no call. *)
Theorem Setattr_call (f : File) (req : SetattrRequest) (st : St)
  (o : Object) (t : Instant) :
  sr_call (Setattr cfg f req st) = Some (o, t) ->
  noModTime cfg = false
  /\ f_o (sr_f (Setattr cfg f req st)) = Some o
  /\ IsZero t = false
  /\ ((Valid_MtimeNow (sa_Valid req) = true
       /\ t = timeNow (world (fst (fst (waitForValidObject f st)))))
      \/ (Valid_MtimeNow (sa_Valid req) = false
          /\ Valid_Mtime (sa_Valid req) = true
          /\ t = sa_Mtime req)).
Proof.
  unfold Setattr, waitForValidObject.
  destruct (noModTime cfg); [discriminate|].
  destruct (waitLoop_bounded 50 f st) as (k & _ & _ & Hres).
  destruct (waitLoop 50 f st) as [[st1 f1] [o1|e1]]; cbn [fst snd] in *;
    [|discriminate].
  set (newTime := if Valid_MtimeNow (sa_Valid req) then timeNow (world st1)
                  else if Valid_Mtime (sa_Valid req) then sa_Mtime req
                  else zeroInstant).
  assert (Hnt : IsZero newTime = false ->
                (Valid_MtimeNow (sa_Valid req) = true /\ newTime = timeNow (world st1))
                \/ (Valid_MtimeNow (sa_Valid req) = false
                    /\ Valid_Mtime (sa_Valid req) = true
                    /\ newTime = sa_Mtime req)).
  { subst newTime. destruct (Valid_MtimeNow (sa_Valid req)); [now left|].
    destruct (Valid_Mtime (sa_Valid req)); [now right|]. discriminate. }
  destruct (IsZero newTime) eqn:Hz; cbn [negb]; [discriminate|].
  destruct (objSetModTime (world st1) o1 newTime) as [w [err|]];
    [destruct err|]; cbn [sr_call sr_f]; intros H; injection H as <- <-;
    (split; [reflexivity|]); (split; [exact Hres|]); (split; [exact Hz|]);
    now apply Hnt.
Qed.

(** X18.  [Setattr] never returns [ErrorCantSetModTime]: when the
    backend answers [SetModTime] with it, or with success, [Setattr]
    succeeds.  An error it does return is the error of the wait for a
    valid object (and then [SetModTime] was not called) or the error
    [SetModTime] gave.  With modification times off it does nothing at
    all: no wait, no call, no error. *)
Theorem Setattr_errors (f : File) (req : SetattrRequest) (st : St) :
  let run := Setattr cfg f req st in
  sr_err run <> Some ErrorCantSetModTime
  /\ (forall e, sr_err run = Some e ->
        (snd (waitForValidObject f st) = Failed e /\ sr_call run = None)
        \/ exists o t,
             sr_call run = Some (o, t)
             /\ snd (objSetModTime (world (fst (fst (waitForValidObject f st)))) o t)
                = Some e)
  /\ (forall o t,
        sr_call run = Some (o, t) ->
        snd (objSetModTime (world (fst (fst (waitForValidObject f st)))) o t) = None
        \/ snd (objSetModTime (world (fst (fst (waitForValidObject f st)))) o t)
           = Some ErrorCantSetModTime ->
        sr_err run = None)
  /\ (noModTime cfg = true ->
      run = {| sr_st := st; sr_f := f; sr_call := None; sr_err := None |}).
Proof.
  cbv zeta. unfold Setattr.
  destruct (noModTime cfg).
  - cbn [sr_err sr_call]. split; [discriminate|]. split; [discriminate|].
    split; [discriminate|]. reflexivity.
  - destruct (waitForValidObject f st) as [[st1 f1] [o1|e1]] eqn:Hwait;
      cbn [fst snd].
    + set (newTime := if Valid_MtimeNow (sa_Valid req) then timeNow (world st1)
                      else if Valid_Mtime (sa_Valid req) then sa_Mtime req
                      else zeroInstant).
      destruct (negb (IsZero newTime)).
      * destruct (objSetModTime (world st1) o1 newTime) as [w [err|]] eqn:Hset;
          [destruct err|]; cbn [sr_err sr_call];
          (split; [discriminate|]);
          (split; [try discriminate; intros e He; injection He as <-; right;
                   exists o1, newTime; rewrite Hset; now split|]);
          (split; [|discriminate]);
          intros o2 t2 Hc; injection Hc as <- <-; rewrite Hset; cbn [snd];
          intros [H|H]; try reflexivity; discriminate H.
      * cbn [sr_err sr_call]. split; [discriminate|]. split; [discriminate|].
        split; [discriminate|]. discriminate.
    + cbn [sr_err sr_call]. split.
      * destruct (waitLoop_bounded 50 f st) as (k & _ & _ & Hres).
        unfold waitForValidObject in Hwait. rewrite Hwait in Hres. cbn [snd] in Hres.
        destruct Hres as [(H & _)|(H & _)]; subst e1; discriminate.
      * split; [intros e He; injection He as <-; now left|].
        split; [discriminate|discriminate].
Qed.

End MoreProperties.

(* ================================================================== *)
(** ** More properties on the scripted backend *)

Section MoreOnTheScriptedBackend.

Import Sim SimNode Examples MoreExamples.
Local Open Scope string_scope.

(** O_RDONLY with [--no-checksum] and [--no-seek] on a node that has its
    object. *)
Lemma Open_read_handle_witness :
  exists st' fh,
    Open cfgPlain fileReady openR openResp0 st0
    = (st', fileReady, {| rs_Flags := OpenNonSeekable |}, Ok (HRead fh))
    /\ f_o fileReady = Some (fh_o fh)
    /\ fh_offset fh = 0%Z /\ fh_hash fh = None.
Proof.
  destruct (Open cfgPlain fileReady openR openResp0 st0)
    as [[[st' f'] resp'] res] eqn:E.
  assert (Hres : exists fh, res = Ok (HRead fh) /\ f' = fileReady
                            /\ resp' = {| rs_Flags := OpenNonSeekable |}).
  { vm_compute in E. injection E as _ <- <- <-. eexists. repeat split. }
  destruct Hres as (fh & -> & -> & ->).
  destruct (Open_read_handle cfgPlain fileReady openR openResp0 st0 _ _ _ _ E)
    as (_ & Ho & _ & Hoff & _ & Hh & _).
  exists st', fh. repeat split; auto.
Defined.

(** Both access bits set, on a node that has its object. *)
Lemma Open_error_kinds_witness :
  snd (Open cfg10 fileReady openBoth openResp0 st0) = Failed (ErrOpenFlags 3).
Proof.
  destruct (Open cfg10 fileReady openBoth openResp0 st0)
    as [[[st' f'] resp'] res] eqn:E.
  assert (Hres : res = Failed (ErrOpenFlags 3)).
  { vm_compute in E. injection E as _ _ _ <-. reflexivity. }
  subst res.
  destruct (Open_error_kinds cfg10 fileReady openBoth openResp0 st0 _ _ _ _ E)
    as [H|[H|[(c & H & _)|[(c & H & _)|[(H & _)|(H & _)]]]]];
    try discriminate H. reflexivity.
Defined.

(** The node nobody writes to, opened read-only. *)
Lemma Open_orphan_witness :
  Open cfg10 fileOrphan openR openResp0 st0 =
    (st0, fileOrphan, openResp0, Failed (ErrNew "can't open file - writer failed")).
Proof. apply (Open_orphan cfg10 fileOrphan openR openResp0 st0); reflexivity. Defined.

(** The first two bytes of "hello", read from the start. *)
Lemma Read_feeds_hash_witness :
  let '(_, fh', resp', _) := Read cfg10 fh0 reqHead resp0 st0 in
  fh_hash fh' = Some ([HashMD5; HashSHA1], Data resp') /\ fh_offset fh' = 2%Z.
Proof.
  destruct (Read cfg10 fh0 reqHead resp0 st0) as [[[st' fh'] resp'] err] eqn:E.
  assert (Herr : err = None).
  { vm_compute in E. injection E as _ _ _ <-. reflexivity. }
  subst err.
  assert (Hh : fh_hash fh' = Some ([HashMD5; HashSHA1], [x68; x65])).
  { vm_compute in E. injection E as _ <- _. reflexivity. }
  assert (Hd : Data resp' = [x68; x65]).
  { vm_compute in E. injection E as _ _ <-. reflexivity. }
  destruct (Read_feeds_hash cfg10 fh0 reqHead resp0 st0 _ _ _ _ E Hh)
    as (h & Hh0 & [(Hsz & _)|(_ & Hfed & Hoff)]).
  - exfalso. vm_compute in Hsz. now apply Hsz.
  - split; [now rewrite Hh, Hd|]. rewrite Hoff, Hd. reflexivity.
Defined.

(** "he", then "llo": the hash state has seen "hello". *)
Lemma readAll_feeds_hash_witness :
  exists st' fh',
    readAll cfg10 [reqHead; reqRest] fh0 st0
    = Some (st', fh', [[x68; x65]; [x6c; x6c; x6f]])
    /\ fh_hash fh' = Some ([HashMD5; HashSHA1], hello)
    /\ fh_offset fh' = 5%Z.
Proof.
  destruct (readAll cfg10 [reqHead; reqRest] fh0 st0) as [[[st' fh'] chunks]|] eqn:E;
    [|vm_compute in E; discriminate E].
  assert (Hc : chunks = [[x68; x65]; [x6c; x6c; x6f]]).
  { vm_compute in E. injection E as _ _ <-. reflexivity. }
  assert (Hh : fh_hash fh' = Some ([HashMD5; HashSHA1], hello)).
  { vm_compute in E. injection E as _ <- _. reflexivity. }
  subst chunks.
  assert (Hin : Forall (fun req => (rq_Offset req < Size (fh_o fh0))%Z)
                  [reqHead; reqRest]) by (repeat constructor).
  destruct (readAll_feeds_hash cfg10 _ fh0 st0 _ _ _ _ E Hin Hh) as (h & Hh0 & _ & Hoff).
  exists st', fh'. split; [reflexivity|]. split; [exact Hh|].
  rewrite Hoff. reflexivity.
Defined.

(** A read of no bytes on the fresh handle. *)
Lemma Read_empty_witness :
  Read cfg10 fh0 reqEmpty resp0 st0 = (st0, fh0, {| Data := [] |}, None).
Proof.
  assert (Hr : Int64.in_range (fh_offset fh0)) by (vm_compute; split; discriminate).
  pose proof (Read_empty cfg10 fh0 reqEmpty resp0 st0 eq_refl eq_refl eq_refl Hr) as H.
  destruct (Read cfg10 fh0 reqEmpty resp0 st0) as [[[st' fh'] resp'] err] eqn:E.
  destruct H as (-> & _ & _ & _ & _ & ->).
  vm_compute in E. injection E as <- <-. reflexivity.
Defined.

(** [Release] after "hello" was read and verified; [Release] after a
    corrupted transfer. *)
Lemma Release_first_witness :
  (let '(st', fh', err) := Release fhEnd stEnd in
   fh_closed fh' = true /\ err = None
   /\ countEv isCloseEv (since stEnd st') = 1%nat)
  /\ (let '(st', fh', err) := Release fhCorrupt stEnd in
      fh_closed fh' = true
      /\ err = Some (ErrCorrupted HashMD5 "jello" "hello")
      /\ countEv isCloseEv (since stEnd st') = 0%nat).
Proof.
  split.
  - pose proof (Release_first fhEnd stEnd eq_refl) as H.
    destruct (Release fhEnd stEnd) as [[st' fh'] err].
    destruct H as (-> & _ & H). split; [reflexivity|].
    change (snd (checkHash fhEnd stEnd)) with (@None Err) in H. exact H.
  - pose proof (Release_first fhCorrupt stEnd eq_refl) as H.
    destruct (Release fhCorrupt stEnd) as [[st' fh'] err].
    destruct H as (-> & _ & H). split; [reflexivity|].
    change (snd (checkHash fhCorrupt stEnd))
      with (Some (ErrCorrupted HashMD5 "jello" "hello")) in H. exact H.
Defined.

(** The closed handle is read, flushed and released again. *)
Lemma closed_handle_inert_witness :
  let '(st', fh') := run cfg10 [OpRead reqAll resp0; OpFlush; OpRelease] fhClosed stEnd in
  fh' = fhClosed /\ countEv isStreamEv (since stEnd st') = 0%nat.
Proof.
  pose proof (closed_handle_inert cfg10 [OpRead reqAll resp0; OpFlush; OpRelease]
                fhClosed stEnd eq_refl eq_refl) as H.
  destruct (run cfg10 _ fhClosed stEnd) as [st' fh'].
  destruct H as (H1 & _ & H2). now split.
Defined.

(** After the corrupted transfer the stream is left open for good. *)
Lemma failed_check_leaves_stream_open_witness :
  let '(st1, fh1, err) := Release fhCorrupt stEnd in
  let '(st2, _) := run cfg10 [OpRelease; OpFlush; OpRead reqAll resp0] fh1 st1 in
  err = Some (ErrCorrupted HashMD5 "jello" "hello")
  /\ countEv isCloseEv (since stEnd st2) = 0%nat.
Proof.
  pose proof (failed_check_leaves_stream_open cfg10
                [OpRelease; OpFlush; OpRead reqAll resp0] fhCorrupt stEnd
                (ErrCorrupted HashMD5 "jello" "hello") eq_refl eq_refl eq_refl) as H.
  destruct (Release fhCorrupt stEnd) as [[st1 fh1] err].
  destruct (run cfg10 _ fh1 st1) as [st2 fh2].
  destruct H as (H1 & _ & H2). now split.
Defined.

(** Read everything, flush, release, release again: one report. *)
Lemma done_transferring_once_witness :
  let '(st', fh') :=
    run cfg10 [OpRead reqAll resp0; OpFlush; OpRelease; OpRelease] fh0 st0 in
  fh_closed fh' = true /\ countEv isDoneEv (since st0 st') = 1%nat.
Proof.
  pose proof (done_transferring_once cfg10
                [OpRead reqAll resp0; OpFlush; OpRelease; OpRelease] fh0 st0 eq_refl)
    as H.
  destruct (run cfg10 _ fh0 st0) as [st' fh'] eqn:E.
  assert (Hc : fh_closed fh' = true).
  { vm_compute in E. injection E as _ <-. reflexivity. }
  rewrite Hc in H. now split.
Defined.

(** A node with an object of 1300 bytes: three blocks. *)
Lemma Attr_size_blocks_witness :
  let a' := fst (Attr cfg10 owner0 (newFile dir0 (Some objBig)) attr0 st0) in
  at_Size a' = 1300%Z /\ at_Blocks a' = 3%Z /\ at_Uid a' = 1000%Z.
Proof.
  cbv zeta.
  assert (Hs : (0 <= Size objBig <= Int64.max_signed)%Z)
    by (vm_compute; split; discriminate).
  destruct (Attr_size_blocks cfg10 owner0 (newFile dir0 (Some objBig)) attr0 st0 Hs)
    as (_ & H1 & _ & H2 & _).
  split; [exact H1|]. split; [reflexivity|exact H2].
Defined.

(** 512 bytes written, then one more. *)
Lemma Attr_while_writing_witness :
  let a' := fst (Attr cfg10 owner0 (writtenAll (newFile dir0 None) [512; 1]%Z)
                   attr0 st0) in
  at_Size a' = 513%Z /\ at_Mtime a' = 7%Z.
Proof.
  cbv zeta.
  assert (Hall : Forall (fun n => (0 <= n)%Z) [512; 1]%Z)
    by (repeat constructor; discriminate).
  assert (Hmax : (fold_right Z.add 0 [512; 1] <= Int64.max_signed)%Z)
    by (vm_compute; discriminate).
  destruct (Attr_while_writing cfg10 owner0 dir0 [512; 1]%Z attr0 st0 Hall Hmax)
    as (H1 & _ & H2 & _).
  split; [exact H1|exact H2].
Defined.

(** The writer installs "hello" on the node it was writing. *)
Lemma setObject_installs_witness :
  let '(st1, f1) := setObject (written fileWriting 9) obj st0 in
  waitForValidObject f1 st1 = (st1, f1, Ok obj)
  /\ at_Size (fst (Attr cfg10 owner0 f1 attr0 st1)) = 5%Z
  /\ at_Mtime (fst (Attr cfg10 owner0 f1 attr0 st1)) = 1500%Z.
Proof.
  pose proof (setObject_installs cfg10 owner0 (written fileWriting 9) obj attr0 st0) as H.
  destruct (setObject (written fileWriting 9) obj st0) as [st1 f1].
  destruct H as (_ & _ & Hw & Hs & Ht).
  split; [exact Hw|]. split; [rewrite Hs; reflexivity|].
  destruct (Ht eq_refl) as (_ & Hm & _). rewrite Hm. reflexivity.
Defined.

(** [touch]: the time set is the clock's. *)
Lemma Setattr_call_witness :
  sr_call (Setattr cfg10 fileReady touchNow st0) = Some (obj, 1601%Z)
  /\ sr_call (Setattr cfg10 fileReady chmodOnly st0) = None.
Proof.
  split; [|reflexivity].
  assert (Hc : sr_call (Setattr cfg10 fileReady touchNow st0) = Some (obj, 1601%Z))
    by (vm_compute; reflexivity).
  destruct (Setattr_call cfg10 fileReady touchNow st0 obj 1601%Z Hc)
    as (_ & _ & _ & [(_ & Ht)|(Hn & _)]); [exact Hc|discriminate Hn].
Defined.

(** [touch] on a backend that cannot set modification times succeeds;
    on a failing backend it returns the failure. *)
Lemma Setattr_errors_witness :
  sr_err (Setattr cfg10 fileReady touchNow stOneFault) = None
  /\ sr_err (Setattr cfg10 fileReady touchAt stThreeFaults) = Some (ErrBackend 3)
  /\ Setattr cfgNoModTime fileOrphan touchNow st0
     = {| sr_st := st0; sr_f := fileOrphan; sr_call := None; sr_err := None |}.
Proof.
  split; [|split].
  - destruct (Setattr_errors cfg10 fileReady touchNow stOneFault) as (_ & _ & H & _).
    apply (H obj 1601%Z); [vm_compute; reflexivity|]. right. vm_compute. reflexivity.
  - destruct (Setattr_errors cfg10 fileReady touchAt stThreeFaults) as (_ & H & _ & _).
    destruct (sr_err (Setattr cfg10 fileReady touchAt stThreeFaults)) as [e|] eqn:E;
      [|vm_compute in E; discriminate E].
    destruct (H e eq_refl) as [(Hw & _)|(o & t & Hc & Hs)].
    + vm_compute in Hw. discriminate Hw.
    + vm_compute in Hc. injection Hc as <- <-. vm_compute in Hs. congruence.
  - destruct (Setattr_errors cfgNoModTime fileOrphan touchNow st0) as (_ & _ & _ & H).
    apply H. reflexivity.
Defined.

End MoreOnTheScriptedBackend.
